(** * Transposition table of the jackfish engine ([src/jackfish/tp.js])

    A shallow embedding of the Zobrist hashing of positions and of the two
    transposition caches ([LRU] and [Cache]), with the properties of the
    specification proved, or refuted, on it.

    JavaScript numbers that hold integers are modelled in [Z]; the bitwise
    operator [^] works on 32-bit signed integers and its wrap-around is
    written out.  Objects and sparse arrays indexed by numbers are finite
    maps ([gmap]); the insertion-ordered [Map] of the LRU cache is an
    association list. *)

From stdpp Require Import gmap list fin_maps sorting.

Local Open Scope Z_scope.

(** ** 32-bit signed integers and the [^] operator *)

Definition int32 (x : Z) : Prop := - 2 ^ 31 ≤ x < 2 ^ 31.

(** ECMAScript's ToInt32 on an integer. *)
Definition to_int32 (x : Z) : Z := (x + 2 ^ 31) `mod` 2 ^ 32 - 2 ^ 31.

(** [a ^ b]: both operands are converted with ToInt32, the result is a
    32-bit signed integer. *)
Definition xor32 (a b : Z) : Z := to_int32 (Z.lxor (to_int32 a) (to_int32 b)).

(** A hash tuple [[low, high]]. *)
Definition KeyPair : Type := Z * Z.

Definition int32_pair (k : KeyPair) : Prop := int32 k.1 ∧ int32 k.2.

(** [xs[i]] on a JavaScript array for a number [i]: [undefined] below zero
    and past the end. *)
Definition js_index {A : Type} (xs : list A) (i : Z) : option A :=
  if decide (i < 0) then None else xs !! Z.to_nat i.

(** Modelled from the spec: [WHITE] and [BLACK] come from [declarations.js],
    which is not part of the sources; the spec has one key-pair for
    "white to move" and one for "black to move". *)
Inductive Color : Type := WHITE | BLACK.

#[global] Instance Color_eq_dec : EqDecision Color.
Proof. solve_decision. Defined.

(** ** Zobrist keys and the hash of a position *)

Section Zobrist.

(** The piece tags of [declarations.js] (not part of the sources). *)
Context {Piece : Type} `{Countable Piece}.

(** The seeded generator [random] of random-js: [mt n] is the result of the
    [n]-th call of [rand()]; the generator's state is the number of calls
    made so far. *)
Variable mt : nat → Z.

(** [pieces] of [declarations.js]. *)
Variable pieces : list Piece.

(** The object [hashes]: [hashes[p]] for a piece [p], [hashes.turn],
    [hashes.wc], [hashes.bc] and [hashes.epFile].  A field that was never
    assigned behaves as an empty array: every read of an element of it
    fails. *)
Record Hashes : Type := mkHashes {
  hashes_piece : gmap Piece (list KeyPair);
  hashes_turn : Color → option KeyPair;
  hashes_wc : list KeyPair;
  hashes_bc : list KeyPair;
  hashes_epFile : list KeyPair
}.

(** Modelled from the spec: [Position.js] is not part of the sources.  The
    fields are the ones [hash] reads: [board[i]] is empty ([None], falsy) or
    a piece, [wc] and [bc] are [[queenside, kingside]], [ep] is [-1] for
    "none". *)
Record Position : Type := mkPosition {
  pos_board : list (option Piece);
  pos_turn : Color;
  pos_wc : bool * bool;
  pos_bc : bool * bool;
  pos_ep : Z
}.

(** The module's state: the generator and the table. *)
Record Globals : Type := mkGlobals {
  random : nat;
  hashes : Hashes
}.

(** Computations over the module's state that may throw (a TypeError on a
    read through [undefined]). *)
Definition M (A : Type) : Type := Globals → option (A * Globals).

Definition ret {A : Type} (a : A) : M A := λ g, Some (a, g).

Definition bind {A B : Type} (c : M A) (k : A → M B) : M B :=
  λ g, match c g with
       | Some (a, g') => k a g'
       | None => None
       end.

Definition throw {A : Type} : M A := λ _, None.

Notation "'let*' x := c 'in' k" := (bind c (λ x, k))
  (at level 10, x name, c at level 100, k at level 200, only parsing).
Notation "c ;; k" := (bind c (λ _, k))
  (at level 100, k at level 200, only parsing, right associativity).

Definition get_hashes : M Hashes := λ g, Some (hashes g, g).

Definition set_hashes (hs : Hashes) : M unit :=
  λ g, Some ((), mkGlobals (random g) hs).

(** [rand()] *)
Definition rand : M Z :=
  λ g, Some (mt (random g), mkGlobals (S (random g)) (hashes g)).

(** [make = () => [rand(), rand()]] *)
Definition make : M KeyPair :=
  let* low := rand in let* high := rand in ret (low, high).

(** [for (let i = start; i < start + n; i++) body], the variables the body
    assigns threaded as [s]. *)
Fixpoint for_loop {St : Type} (start : nat) (n : nat) (body : nat → St → M St)
  (s : St) : M St :=
  match n with
  | O => ret s
  | S n' => let* s' := body start s in for_loop (S start) n' body s'
  end.

(** [xs.forEach(body)] *)
Fixpoint forEach {A : Type} (xs : list A) (body : A → M unit) : M unit :=
  match xs with
  | [] => ret ()
  | x :: xs' => body x ;; forEach xs' body
  end.

(** [hashes[p] = arr] *)
Definition set_piece (p : Piece) (arr : list KeyPair) : M unit :=
  let* hs := get_hashes in
  set_hashes (mkHashes (<[p := arr]> (hashes_piece hs)) (hashes_turn hs)
                (hashes_wc hs) (hashes_bc hs) (hashes_epFile hs)).

(** [hashes[p].push(make())] *)
Definition push_piece (p : Piece) : M unit :=
  let* hs := get_hashes in
  match hashes_piece hs !! p with
  | Some arr => let* k := make in set_piece p (arr ++ [k])
  | None => throw
  end.

(** [hashes.turn = f] *)
Definition set_turn (f : Color → option KeyPair) : M unit :=
  let* hs := get_hashes in
  set_hashes (mkHashes (hashes_piece hs) f (hashes_wc hs) (hashes_bc hs)
                (hashes_epFile hs)).

(** [hashes.turn[c] = make()] *)
Definition make_turn (c : Color) : M unit :=
  let* hs := get_hashes in
  let* k := make in
  set_turn (λ c', if decide (c' = c) then Some k else hashes_turn hs c').

(** [hashes.wc = [make(), make()]] *)
Definition make_wc : M unit :=
  let* q := make in let* k := make in
  let* hs := get_hashes in
  set_hashes (mkHashes (hashes_piece hs) (hashes_turn hs) [q; k] (hashes_bc hs)
                (hashes_epFile hs)).

(** [hashes.bc = [make(), make()]] *)
Definition make_bc : M unit :=
  let* q := make in let* k := make in
  let* hs := get_hashes in
  set_hashes (mkHashes (hashes_piece hs) (hashes_turn hs) (hashes_wc hs) [q; k]
                (hashes_epFile hs)).

(** [hashes.epFile = arr] *)
Definition set_epFile (arr : list KeyPair) : M unit :=
  let* hs := get_hashes in
  set_hashes (mkHashes (hashes_piece hs) (hashes_turn hs) (hashes_wc hs)
                (hashes_bc hs) arr).

(** [hashes.epFile.push(make())] *)
Definition push_epFile : M unit :=
  let* hs := get_hashes in
  let* k := make in
  set_epFile (hashes_epFile hs ++ [k]).

(** The body of [pieces.forEach(p => { ... })]: everything between the
    braces, the turn, castling and en-passant keys included. *)
Definition init_piece (p : Piece) : M unit :=
  set_piece p [] ;;
  for_loop 0 64 (λ _ _, push_piece p) () ;;
  set_turn (λ _, None) ;;
  make_turn WHITE ;;
  make_turn BLACK ;;
  make_wc ;;
  make_bc ;;
  set_epFile [] ;;
  for_loop 0 8 (λ _ _, push_epFile) ().

(** [export const hashes = {}] *)
Definition empty_hashes : Hashes := mkHashes ∅ (λ _, None) [] [] [].

(** The state when the module starts to load: a freshly seeded generator
    and [hashes = {}]. *)
Definition globals0 : Globals := mkGlobals 0 empty_hashes.

(** The initialisation of [hashes] when the module is loaded. *)
Definition init : M unit := forEach pieces init_piece.

(** [applyHashes]: [low ^= lowAndHigh[0]; high ^= lowAndHigh[1]], the
    variables [low] and [high] of [hash] passed as [acc]; [undefined] as
    argument throws. *)
Definition applyHashes (lowAndHigh : option KeyPair) (acc : KeyPair) : M KeyPair :=
  match lowAndHigh with
  | Some k => ret (xor32 acc.1 k.1, xor32 acc.2 k.2)
  | None => throw
  end.

(** [if (cond) applyHashes(key)] *)
Definition applyHashes_if (cond : bool) (lowAndHigh : option KeyPair) (acc : KeyPair)
  : M KeyPair :=
  if cond then applyHashes lowAndHigh acc else ret acc.

(** The body of the loop over the squares. *)
Definition hash_square (hs : Hashes) (pos : Position) (i : nat) (acc : KeyPair)
  : M KeyPair :=
  match pos_board pos !! i with
  | Some (Some p) => applyHashes (hashes_piece hs !! p ≫= (.!! i)) acc
  | _ => ret acc
  end.

(** [hash(pos)] *)
Definition hash (pos : Position) : M KeyPair :=
  let* hs := get_hashes in
  let* acc := applyHashes (hashes_turn hs (pos_turn pos)) (0, 0) in
  let* acc := for_loop 0 64 (hash_square hs pos) acc in
  let* acc := applyHashes_if (pos_wc pos).1 (hashes_wc hs !! 0%nat) acc in
  let* acc := applyHashes_if (pos_wc pos).2 (hashes_wc hs !! 1%nat) acc in
  let* acc := applyHashes_if (pos_bc pos).1 (hashes_bc hs !! 0%nat) acc in
  let* acc := applyHashes_if (pos_bc pos).2 (hashes_bc hs !! 1%nat) acc in
  let* acc := applyHashes_if (bool_decide (pos_ep pos ≠ -1))
           (js_index (hashes_epFile hs) (Z.rem (pos_ep pos) 8)) acc in
  ret acc.

(** *** The fingerprint as the specification describes it

    Start from [(0, 0)] and XOR in, in turn, the key-pair of every active
    feature: the side to move, every occupied square, every castling right
    held, the en-passant file.  XOR is the XOR of integers, the file is
    [ep mod 8]. *)

Definition xor_keys (a b : KeyPair) : KeyPair := (Z.lxor a.1 b.1, Z.lxor a.2 b.2).

(** The key-pair the table holds for piece [p] on square [i]. *)
Definition piece_key (hs : Hashes) (p : Piece) (i : nat) : option KeyPair :=
  hashes_piece hs !! p ≫= (.!! i).

Definition square_feature (hs : Hashes) (pos : Position) (i : nat)
  : list (option KeyPair) :=
  match pos_board pos !! i with
  | Some (Some p) => [piece_key hs p i]
  | _ => []
  end.

Definition castling_feature (held : bool) (key : option KeyPair)
  : list (option KeyPair) :=
  if held then [key] else [].

Definition ep_feature (hs : Hashes) (pos : Position) : list (option KeyPair) :=
  if decide (pos_ep pos = -1) then []
  else [hashes_epFile hs !! Z.to_nat (pos_ep pos `mod` 8)].

(** The key-pairs of the active features of a position, in the order of the
    specification; [None] stands for a feature the table has no key for. *)
Definition active_features (hs : Hashes) (pos : Position) : list (option KeyPair) :=
  [hashes_turn hs (pos_turn pos)]
  ++ concat (square_feature hs pos <$> seq 0 64)
  ++ castling_feature (pos_wc pos).1 (hashes_wc hs !! 0%nat)
  ++ castling_feature (pos_wc pos).2 (hashes_wc hs !! 1%nat)
  ++ castling_feature (pos_bc pos).1 (hashes_bc hs !! 0%nat)
  ++ castling_feature (pos_bc pos).2 (hashes_bc hs !! 1%nat)
  ++ ep_feature hs pos.

Fixpoint xor_all (acc : KeyPair) (keys : list (option KeyPair)) : option KeyPair :=
  match keys with
  | [] => Some acc
  | Some k :: keys' => xor_all (xor_keys acc k) keys'
  | None :: _ => None
  end.

Definition computeFingerprint (hs : Hashes) (pos : Position) : option KeyPair :=
  xor_all (0, 0) (active_features hs pos).

(** *** Well-formed tables and positions *)

(** Every number of the table is a 32-bit signed integer. *)
Definition int32_table (hs : Hashes) : Prop :=
  (∀ p arr, hashes_piece hs !! p = Some arr → Forall int32_pair arr)
  ∧ (∀ c k, hashes_turn hs c = Some k → int32_pair k)
  ∧ Forall int32_pair (hashes_wc hs)
  ∧ Forall int32_pair (hashes_bc hs)
  ∧ Forall int32_pair (hashes_epFile hs).

(** The table has a key-pair for every feature over the pieces [ps]. *)
Definition complete_table (ps : list Piece) (hs : Hashes) : Prop :=
  (∀ p, p ∈ ps → ∃ arr, hashes_piece hs !! p = Some arr ∧ length arr = 64%nat)
  ∧ (∀ c, is_Some (hashes_turn hs c))
  ∧ length (hashes_wc hs) = 2%nat
  ∧ length (hashes_bc hs) = 2%nat
  ∧ length (hashes_epFile hs) = 8%nat.

(** The pieces on the board are among [ps]; [ep] is [-1] or a square. *)
Definition wf_position (ps : list Piece) (pos : Position) : Prop :=
  (∀ i p, pos_board pos !! i = Some (Some p) → p ∈ ps) ∧ -1 ≤ pos_ep pos.

(** Two positions with the same features: the same content on each of the
    64 squares, the same side to move, castling rights and en-passant
    value. *)
Definition same_features (p q : Position) : Prop :=
  (∀ i, (i < 64)%nat → default None (pos_board p !! i) = default None (pos_board q !! i))
  ∧ pos_turn p = pos_turn q
  ∧ pos_wc p = pos_wc q
  ∧ pos_bc p = pos_bc q
  ∧ pos_ep p = pos_ep q.

(** [c] returns the same outcome [o] (a value, or [None] when it throws)
    from every state, and leaves the state as it was. *)
Definition pure_M {A : Type} (c : M A) : Prop :=
  ∃ o : option A, ∀ g, c g = (o ≫= λ a, Some (a, g)).

(** The position with White's queenside castling right toggled. *)
Definition toggle_wc_queenside (pos : Position) : Position :=
  mkPosition (pos_board pos) (pos_turn pos) (negb (pos_wc pos).1, (pos_wc pos).2)
    (pos_bc pos) (pos_ep pos).

(** The code [c], run on the variables [low] and [high], XORs in the
    key-pairs [keys] and leaves the module's state alone. *)
Definition refines (c : KeyPair → M KeyPair) (keys : list (option KeyPair)) : Prop :=
  ∀ acc g, int32_pair acc →
    c acc g = (xor_all acc keys ≫= λ acc', Some (acc', g))
    ∧ (∀ acc', xor_all acc keys = Some acc' → int32_pair acc').

(** The [k] key-pairs drawn from the [n]-th call of [rand()] on. *)
Definition keys_from (n : nat) (k : nat) : list KeyPair :=
  (λ i, (mt (n + 2 * i)%nat, mt (n + 2 * i + 1)%nat)) <$> seq 0 k.

(** The key-pair one run of the loop body leaves in [hashes.turn[c]], the
    generator having made [r] calls before. *)
Definition turn_key_at (r : nat) (c : Color) : KeyPair :=
  match c with
  | WHITE => (mt (r + 128)%nat, mt (r + 129)%nat)
  | BLACK => (mt (r + 130)%nat, mt (r + 131)%nat)
  end.

(** The number of features of the specification over [n] piece kinds:
    every (piece, square), two turns, four castling rights, eight files. *)
Definition feature_count (n : nat) : nat := (64 * n + 2 + 4 + 8)%nat.

End Zobrist.

(** ** The transposition table *)

(** [type Entry = Move | number]: a move or a score; [Move] comes from
    [declarations.js]. *)
Inductive Entry (Move : Type) : Type :=
  | EMove (m : Move)
  | EScore (n : Z).

Arguments EMove {Move} m.
Arguments EScore {Move} n.

(** A call of a cache's method. *)
Inductive Op (Move : Type) : Type :=
  | OpGet (hash : KeyPair)
  | OpAdd (hash : KeyPair) (val : Entry Move).

Arguments OpGet {Move} hash.
Arguments OpAdd {Move} hash val.

Definition op_hash {Move : Type} (op : Op Move) : KeyPair :=
  match op with
  | OpGet hash => hash
  | OpAdd hash _ => hash
  end.

(** The 1-based position in [ops] of the last call, [get] or [add], on the
    group [low]; [0] when there is none. *)
Definition last_touch {Move : Type} (ops : list (Op Move)) (low : Z) : nat :=
  (foldl (λ (st : nat * nat) op,
            (S st.1, if decide ((op_hash op).1 = low) then S st.1 else st.2))
         (0%nat, 0%nat) ops).2.

(** The keys [ks] are in the order of their last touch, the least recently
    touched first. *)
Definition by_last_touch {Move : Type} (ops : list (Op Move)) (ks : list Z) : Prop :=
  StronglySorted (λ a b, (last_touch ops a < last_touch ops b)%nat) ks.

(** Some call of [add] in [ops] is on exactly the key-pair [hash]. *)
Definition stored_in {Move : Type} (ops : list (Op Move)) (hash : KeyPair) : Prop :=
  ∃ val, OpAdd hash val ∈ ops.

(** *** [class LRU] *)

Module LRU.

(** [Map<number, Array<Entry>>]: the entries in insertion order, every key
    once.  An [Array<Entry>] indexed by [high] is a finite map. *)
Abbreviation JsMap Move := (list (Z * gmap Z (Entry Move))).

Section WithMove.
Context {Move : Type}.

(** [m.get(k)] *)
Fixpoint Map_get (m : JsMap Move) (k : Z) : option (gmap Z (Entry Move)) :=
  match m with
  | [] => None
  | (k', v) :: m' => if decide (k' = k) then Some v else Map_get m' k
  end.

(** [m.delete(k)] *)
Definition Map_delete (m : JsMap Move) (k : Z) : JsMap Move :=
  filter (λ kv, kv.1 ≠ k) m.

(** [m.set(k, v)]: a key of the map keeps its place, a new one goes last. *)
Fixpoint Map_set (m : JsMap Move) (k : Z) (v : gmap Z (Entry Move)) : JsMap Move :=
  match m with
  | [] => [(k, v)]
  | (k', v') :: m' =>
      if decide (k' = k) then (k, v) :: m' else (k', v') :: Map_set m' k v
  end.

(** [m.size] *)
Definition Map_size (m : JsMap Move) : Z := Z.of_nat (length m).

(** [m.keys().next().value]: the first key, [undefined] on an empty map. *)
Definition Map_first_key (m : JsMap Move) : option Z := fst <$> head m.

Definition Map_keys (m : JsMap Move) : list Z := fst <$> m.

Record LRU : Type := mkLRU {
  map : JsMap Move;
  maxSize : Z
}.

(** [new LRU(maxSize)]: the constructor has one assignment and no check;
    [None] would be a constructor that throws. *)
Definition new (maxSize : Z) : option LRU := Some (mkLRU [] maxSize).

Definition size (c : LRU) : Z := Map_size (map c).

(** [get(hash)]: the entry, [None] for [undefined], and the cache after the
    call. *)
Definition get (c : LRU) (hash : KeyPair) : option (Entry Move) * LRU :=
  let low := hash.1 in
  let high := hash.2 in
  match Map_get (map c) low with
  | Some arr =>
      (arr !! high, mkLRU (Map_set (Map_delete (map c) low) low arr) (maxSize c))
  | None => (None, c)
  end.

(** The first statement of [add]: the [if]/[else] that stores the entry. *)
Definition add_store (c : LRU) (hash : KeyPair) (val : Entry Move) : LRU :=
  let low := hash.1 in
  let high := hash.2 in
  match Map_get (map c) low with
  | Some arr =>
      mkLRU (Map_set (Map_delete (map c) low) low (<[high := val]> arr)) (maxSize c)
  | None => mkLRU (Map_set (map c) low {[high := val]}) (maxSize c)
  end.

(** The second statement of [add]:
    [if (this.map.size > this.maxSize) this.map.delete(first key)];
    [delete(undefined)] deletes nothing. *)
Definition add_evict (c : LRU) : LRU :=
  if decide (maxSize c < Map_size (map c)) then
    match Map_first_key (map c) with
    | Some k => mkLRU (Map_delete (map c) k) (maxSize c)
    | None => c
    end
  else c.

Definition add (c : LRU) (hash : KeyPair) (val : Entry Move) : LRU :=
  add_evict (add_store c hash val).

Definition step (c : LRU) (op : Op Move) : LRU :=
  match op with
  | OpGet hash => (get c hash).2
  | OpAdd hash val => add c hash val
  end.

(** The cache after the calls [ops] on [c], in order. *)
Definition run (c : LRU) (ops : list (Op Move)) : LRU := foldl step c ops.

End WithMove.
End LRU.

(** *** [class Cache] *)

Module Cache.
Section WithMove.
Context {Move : Type}.

(** [cache] is an array of arrays, read and written at [low] and then at
    [high]: a finite map of finite maps. *)
Record Cache : Type := mkCache {
  cache : gmap Z (gmap Z (Entry Move));
  maxSize : Z;
  currentSize : Z
}.

(** [new Cache(size)]: the constructor has one assignment and no check;
    [None] would be a constructor that throws. *)
Definition new (size : Z) : option Cache := Some (mkCache ∅ size 0).

Definition size (c : Cache) : Z := currentSize c.

Definition get (c : Cache) (hash : KeyPair) : option (Entry Move) :=
  let low := hash.1 in
  let high := hash.2 in
  match cache c !! low with
  | Some row => row !! high
  | None => None
  end.

(** [if (this.currentSize === this.maxSize) { this.cache = [];
    this.currentSize = 0 }] *)
Definition add_reset (c : Cache) : Cache :=
  if decide (currentSize c = maxSize c) then mkCache ∅ (maxSize c) 0 else c.

(** The second statement of [add], which stores the entry and counts it
    when the slot was [undefined]. *)
Definition add_store (c : Cache) (hash : KeyPair) (val : Entry Move) : Cache :=
  let low := hash.1 in
  let high := hash.2 in
  match cache c !! low with
  | Some row =>
      mkCache (<[low := <[high := val]> row]> (cache c)) (maxSize c)
        (match row !! high with
         | None => currentSize c + 1
         | Some _ => currentSize c
         end)
  | None =>
      mkCache (<[low := {[high := val]}]> (cache c)) (maxSize c) (currentSize c + 1)
  end.

Definition add (c : Cache) (hash : KeyPair) (val : Entry Move) : Cache :=
  add_store (add_reset c) hash val.

Definition step (c : Cache) (op : Op Move) : Cache :=
  match op with
  | OpGet hash => c
  | OpAdd hash val => add c hash val
  end.

(** The cache after the calls [ops] on [c], in order. *)
Definition run (c : Cache) (ops : list (Op Move)) : Cache := foldl step c ops.

(** The number of [(low, high)] slots that hold an entry: the sizes of the
    rows, added up. *)
Definition count_rows (rows : gmap Z (gmap Z (Entry Move))) : Z :=
  map_fold (λ _ (row : gmap Z (Entry Move)) n, Z.of_nat (base.size row) + n) 0 rows.

Definition entry_count (c : Cache) : Z := count_rows (cache c).

End WithMove.
End Cache.

(** ** Definitions for the further properties *)

Section HashReads.

Context {Piece : Type} `{Countable Piece}.

(** One [applyHashes]: [^] on each half. *)
Definition xor32_keys (a k : KeyPair) : KeyPair := (xor32 a.1 k.1, xor32 a.2 k.2).

(** The key-pairs [keys] applied in turn with [^]; [None], a key the table
    does not have, stops it. *)
Fixpoint xor32_all (acc : KeyPair) (keys : list (option KeyPair)) : option KeyPair :=
  match keys with
  | [] => Some acc
  | Some k :: keys' => xor32_all (xor32_keys acc k) keys'
  | None :: _ => None
  end.

(** The element of [hashes.epFile] that [hash] reads: none for [ep = -1],
    else the one at [ep % 8], the remainder with the sign of [ep]. *)
Definition ep_read (hs : Hashes (Piece := Piece)) (pos : Position (Piece := Piece))
  : list (option KeyPair) :=
  if bool_decide (pos_ep pos ≠ -1)
  then [js_index (hashes_epFile hs) (Z.rem (pos_ep pos) 8)]
  else [].

(** The elements of [hashes] that [hash(pos)] reads, in the order it reads
    them; [None] for [undefined]. *)
Definition hash_reads (hs : Hashes (Piece := Piece)) (pos : Position (Piece := Piece))
  : list (option KeyPair) :=
  [hashes_turn hs (pos_turn pos)]
  ++ concat (square_feature hs pos <$> seq 0 64)
  ++ castling_feature (pos_wc pos).1 (hashes_wc hs !! 0%nat)
  ++ castling_feature (pos_wc pos).2 (hashes_wc hs !! 1%nat)
  ++ castling_feature (pos_bc pos).1 (hashes_bc hs !! 0%nat)
  ++ castling_feature (pos_bc pos).2 (hashes_bc hs !! 1%nat)
  ++ ep_read hs pos.

(** [c], run on the variables [low] and [high], applies the key-pairs
    [keys] with [^], throws at the first one missing, and leaves the module's
    state alone. *)
Definition reads (c : KeyPair → M (Piece := Piece) KeyPair)
    (keys : list (option KeyPair)) : Prop :=
  ∀ acc g, c acc g = (xor32_all acc keys ≫= λ acc', Some (acc', g)).

(** The position with [ep] set to [e]. *)
Definition with_ep (pos : Position (Piece := Piece)) (e : Z) : Position :=
  mkPosition (pos_board pos) (pos_turn pos) (pos_wc pos) (pos_bc pos) e.

(** The position with the side to move set to [c]. *)
Definition with_turn (pos : Position (Piece := Piece)) (c : Color) : Position :=
  mkPosition (pos_board pos) c (pos_wc pos) (pos_bc pos) (pos_ep pos).

(** The position with square [i] set to [sq]. *)
Definition with_square (pos : Position (Piece := Piece)) (i : nat) (sq : option Piece)
  : Position :=
  mkPosition (<[i := sq]> (pos_board pos)) (pos_turn pos) (pos_wc pos) (pos_bc pos)
    (pos_ep pos).

End HashReads.

(** The entry of the last call of [add] in [ops] on exactly the key-pair
    [hash]; [None] when there is none. *)
Definition last_add {Move : Type} (ops : list (Op Move)) (hash : KeyPair)
  : option (Entry Move) :=
  foldl (λ o op,
           match op with
           | OpAdd h val => if decide (h = hash) then Some val else o
           | OpGet _ => o
           end) None ops.

(** The number of calls of [add] in [ops]. *)
Fixpoint count_adds {Move : Type} (ops : list (Op Move)) : nat :=
  match ops with
  | [] => 0
  | OpAdd _ _ :: ops' => S (count_adds ops')
  | OpGet _ :: ops' => count_adds ops'
  end.

(** The key [a] is in [ks] with at most [n] keys after it: at most [n]
    groups have been touched since the group [a]. *)
Definition behind (a : Z) (n : nat) (ks : list Z) : Prop :=
  ∃ l1 l2, ks = l1 ++ a :: l2 ∧ (length l2 ≤ n)%nat.

(** The four castling rights that [hash] reads: [wc[0]], [wc[1]], [bc[0]]
    and [bc[1]]. *)
Inductive Right : Type := WhiteQueenside | WhiteKingside | BlackQueenside | BlackKingside.

Section Rights.

Context {Piece : Type} `{Countable Piece}.

(** The element of [hashes.wc] or [hashes.bc] for a right. *)
Definition right_key (hs : Hashes (Piece := Piece)) (r : Right) : option KeyPair :=
  match r with
  | WhiteQueenside => hashes_wc hs !! 0%nat
  | WhiteKingside => hashes_wc hs !! 1%nat
  | BlackQueenside => hashes_bc hs !! 0%nat
  | BlackKingside => hashes_bc hs !! 1%nat
  end.

(** The position with the right [r] toggled. *)
Definition toggle_right (pos : Position (Piece := Piece)) (r : Right) : Position :=
  match r with
  | WhiteQueenside =>
      mkPosition (pos_board pos) (pos_turn pos) (negb (pos_wc pos).1, (pos_wc pos).2)
        (pos_bc pos) (pos_ep pos)
  | WhiteKingside =>
      mkPosition (pos_board pos) (pos_turn pos) ((pos_wc pos).1, negb (pos_wc pos).2)
        (pos_bc pos) (pos_ep pos)
  | BlackQueenside =>
      mkPosition (pos_board pos) (pos_turn pos) (pos_wc pos)
        (negb (pos_bc pos).1, (pos_bc pos).2) (pos_ep pos)
  | BlackKingside =>
      mkPosition (pos_board pos) (pos_turn pos) (pos_wc pos)
        ((pos_bc pos).1, negb (pos_bc pos).2) (pos_ep pos)
  end.

End Rights.

(** ** Concrete inputs

    A generator, two pieces, the table the module builds from them, a
    position, and short runs of the two caches, for the instances of the
    theorems at the end. *)

Definition example_mt (n : nat) : Z := (Z.of_nat n * 7919 + 13) `mod` 100003 - 50000.

Definition example_pieces : list nat := [0%nat; 1%nat].

(** The module's state after the initialisation. *)
Definition example_globals : Globals (Piece := nat) :=
  match init example_mt example_pieces globals0 with
  | Some (_, g) => g
  | None => globals0
  end.

Definition example_pos : Position (Piece := nat) :=
  mkPosition [Some 0%nat; None; Some 1%nat] WHITE (true, false) (false, true) 20.

(** The same features, on a board written with its empty squares. *)
Definition example_pos' : Position (Piece := nat) :=
  mkPosition [Some 0%nat; None; Some 1%nat; None; None] WHITE (true, false)
    (false, true) 20.

Definition example_ops : list (Op unit) :=
  [OpAdd (1, 10) (EScore 5); OpAdd (2, 20) (EScore 0); OpGet (1, 10)].

(** An empty flush cache with room for one entry. *)
Definition example_cache1 : Cache.Cache (Move := unit) := Cache.mkCache ∅ 1 0.

Definition example_add : Op unit := OpAdd (3, 30) (EMove ()).

(** * Properties *)

(** ** 32-bit integers *)

Lemma to_int32_int32 x : int32 (to_int32 x).
Proof.
  unfold int32, to_int32.
  pose proof (Z.mod_pos_bound (x + 2 ^ 31) (2 ^ 32)). lia.
Qed.

Lemma to_int32_id x : int32 x → to_int32 x = x.
Proof.
  unfold int32, to_int32. intros Hx.
  rewrite Z.mod_small; lia.
Qed.

(** A 32-bit signed integer is a number whose bits from 31 on are all
    equal. *)
Lemma int32_shiftr x : int32 x ↔ (Z.shiftr x 31 = 0 ∨ Z.shiftr x 31 = -1).
Proof.
  unfold int32. rewrite Z.shiftr_div_pow2 by lia.
  pose proof (Z.div_mod x (2 ^ 31)) as Hdm.
  pose proof (Z.mod_pos_bound x (2 ^ 31)) as Hb.
  lia.
Qed.

Lemma int32_lxor a b : int32 a → int32 b → int32 (Z.lxor a b).
Proof.
  rewrite !int32_shiftr, Z.shiftr_lxor.
  intros [-> | ->] [-> | ->]; cbn; auto.
Qed.

Lemma xor32_int32 a b : int32 (xor32 a b).
Proof. apply to_int32_int32. Qed.

Lemma xor32_lxor a b : int32 a → int32 b → xor32 a b = Z.lxor a b.
Proof.
  intros Ha Hb. unfold xor32.
  rewrite (to_int32_id a), (to_int32_id b) by done.
  apply to_int32_id, int32_lxor; done.
Qed.

Lemma xor32_lxor_l a k : int32 a → xor32 a k = Z.lxor a (to_int32 k).
Proof.
  intros Ha. unfold xor32. rewrite (to_int32_id a) by done.
  apply to_int32_id, int32_lxor; [done | apply to_int32_int32].
Qed.

Lemma xor32_twice a k : int32 a → xor32 (xor32 a k) k = a.
Proof.
  intros Ha.
  rewrite (xor32_lxor_l (xor32 a k)) by apply xor32_int32.
  rewrite (xor32_lxor_l a) by done.
  by rewrite Z.lxor_assoc, Z.lxor_nilpotent, Z.lxor_0_r.
Qed.

Lemma xor32_swap a j k : int32 a → xor32 (xor32 a j) k = xor32 (xor32 a k) j.
Proof.
  intros Ha.
  rewrite !(xor32_lxor_l (xor32 a _)) by apply xor32_int32.
  rewrite !(xor32_lxor_l a) by done.
  rewrite !Z.lxor_assoc. f_equal. apply Z.lxor_comm.
Qed.

Lemma int32_pair_zero : int32_pair (0, 0).
Proof. split; cbn; unfold int32; lia. Qed.

Lemma xor_keys_int32 a k : int32_pair a → int32_pair k → int32_pair (xor_keys a k).
Proof. intros [??] [??]. split; cbn; by apply int32_lxor. Qed.

Lemma xor_all_app acc ks1 ks2 :
  xor_all acc (ks1 ++ ks2) = xor_all acc ks1 ≫= λ acc', xor_all acc' ks2.
Proof.
  revert acc. induction ks1 as [|[k|] ks1 IH]; intros acc; cbn; auto.
Qed.

Lemma xor_all_is_Some acc ks : Forall is_Some ks → is_Some (xor_all acc ks).
Proof.
  intros Hks. revert acc.
  induction Hks as [|k ks [x ->] _ IH]; intros acc; cbn; eauto.
Qed.

(** ** The hash of a position *)

Section ZobristFacts.

Context {Piece : Type} `{Countable Piece}.

Implicit Types (hs : Hashes (Piece := Piece)) (pos : Position (Piece := Piece)).
Implicit Types (g : Globals (Piece := Piece)) (acc k : KeyPair).

(** *** Rules for [refines] *)

Lemma refines_ret : refines (Piece := Piece) ret [].
Proof. intros acc g Hacc. split; [done | by intros ? [= <-]]. Qed.

Lemma refines_applyHashes (key : option KeyPair) :
  (∀ k, key = Some k → int32_pair k) →
  refines (Piece := Piece) (applyHashes key) [key].
Proof.
  intros Hkey acc g [Hl Hh]. destruct key as [k|]; cbn; [|done].
  destruct (Hkey k eq_refl) as [Hkl Hkh].
  unfold ret, xor_keys. rewrite !xor32_lxor by done.
  split; [done|]. intros ? [= <-]. split; cbn; by apply int32_lxor.
Qed.

Lemma refines_bind (c1 : KeyPair → M KeyPair) (c2 : KeyPair → M KeyPair) ks1 ks2 :
  refines (Piece := Piece) c1 ks1 → refines c2 ks2 →
  refines (λ acc, bind (c1 acc) c2) (ks1 ++ ks2).
Proof.
  intros H1 H2 acc g Hacc. destruct (H1 acc g Hacc) as [E1 I1].
  rewrite xor_all_app. unfold bind. rewrite E1.
  destruct (xor_all acc ks1) as [acc1|]; cbn; [|done].
  apply H2, I1. done.
Qed.

Lemma refines_for_loop (body : nat → KeyPair → M KeyPair)
    (keys : nat → list (option KeyPair)) start n :
  (∀ i, refines (Piece := Piece) (body i) (keys i)) →
  refines (for_loop start n body) (concat (keys <$> seq start n)).
Proof.
  intros Hbody. revert start.
  induction n as [|n IH]; intros start; cbn [for_loop seq fmap list_fmap concat].
  - apply refines_ret.
  - apply (refines_bind (body start) (for_loop (S start) n body)); auto.
Qed.

Lemma refines_ext (c c' : KeyPair → M KeyPair) ks ks' :
  (∀ acc g, c acc g = c' acc g) → ks = ks' →
  refines (Piece := Piece) c' ks' → refines c ks.
Proof. intros Hc -> Hr acc g Hacc. rewrite Hc. by apply Hr. Qed.

(** *** The keys read from a table of 32-bit integers *)

Lemma int32_piece_key hs p i k :
  int32_table hs → piece_key hs p i = Some k → int32_pair k.
Proof.
  intros (Hp & _) Hk. unfold piece_key in Hk.
  destruct (hashes_piece hs !! p) as [arr|] eqn:Harr; [|done]. cbn in Hk.
  exact (Forall_lookup_1 _ _ _ _ (Hp p arr Harr) Hk).
Qed.

Lemma refines_hash_square hs pos i :
  int32_table hs → refines (hash_square hs pos i) (square_feature hs pos i).
Proof.
  intros Hhs. unfold hash_square, square_feature.
  destruct (pos_board pos !! i) as [[p|]|]; try apply refines_ret.
  apply refines_applyHashes. intros k. apply int32_piece_key. done.
Qed.

Lemma refines_applyHashes_if (held : bool) (arr : list KeyPair) (i : nat) :
  Forall int32_pair arr →
  refines (Piece := Piece) (applyHashes_if held (arr !! i))
    (castling_feature held (arr !! i)).
Proof.
  intros Harr. unfold applyHashes_if, castling_feature.
  destruct held; [|apply refines_ret].
  apply refines_applyHashes. intros k Hk. eapply Forall_lookup_1; eauto.
Qed.

Lemma refines_ep hs pos :
  int32_table hs → -1 ≤ pos_ep pos →
  refines (Piece := Piece)
    (applyHashes_if (bool_decide (pos_ep pos ≠ -1))
       (js_index (hashes_epFile hs) (Z.rem (pos_ep pos) 8)))
    (ep_feature hs pos).
Proof.
  intros (_ & _ & _ & _ & Hep) Hge. unfold applyHashes_if, ep_feature.
  destruct (decide (pos_ep pos = -1)) as [E|N].
  - rewrite bool_decide_eq_false_2 by (intros ?; done). apply refines_ret.
  - rewrite bool_decide_eq_true_2 by done.
    rewrite Z.rem_mod_nonneg by lia. unfold js_index.
    pose proof (Z.mod_pos_bound (pos_ep pos) 8).
    rewrite decide_False by lia.
    apply refines_applyHashes. intros k Hk. eapply Forall_lookup_1; eauto.
Qed.

(** [hash] refines the specification's fingerprint and gives the module's
    state back as it found it. *)
Lemma hash_refines pos g :
  int32_table (hashes g) → -1 ≤ pos_ep pos →
  hash pos g = (computeFingerprint (hashes g) pos ≫= λ fp, Some (fp, g))
  ∧ (∀ fp, computeFingerprint (hashes g) pos = Some fp → int32_pair fp).
Proof.
  intros Hhs Hep. pose proof Hhs as (_ & Hturn & Hwc & Hbc & _).
  unfold hash, computeFingerprint, active_features.
  unfold bind at 1. unfold get_hashes.
  set (hs := hashes g) in *.
  refine (refines_bind (applyHashes _) _ [_] _ _ _ (0, 0) g int32_pair_zero).
  { apply refines_applyHashes. intros k. apply Hturn. }
  refine (refines_bind (for_loop 0 64 (hash_square hs pos)) _ _ _ _ _).
  { apply refines_for_loop. intros i. by apply refines_hash_square. }
  refine (refines_bind (applyHashes_if _ _) _ _ _ _ _).
  { by apply refines_applyHashes_if. }
  refine (refines_bind (applyHashes_if _ _) _ _ _ _ _).
  { by apply refines_applyHashes_if. }
  refine (refines_bind (applyHashes_if _ _) _ _ _ _ _).
  { by apply refines_applyHashes_if. }
  refine (refines_bind (applyHashes_if _ _) _ _ _ _ _).
  { by apply refines_applyHashes_if. }
  eapply refines_ext; [| |apply (refines_bind _ ret _ [] (refines_ep hs pos Hhs Hep) refines_ret)].
  - done.
  - by rewrite app_nil_r.
Qed.

(** On a complete table every active feature of a well-formed position has
    a key, so the fingerprint is defined. *)
Lemma computeFingerprint_is_Some ps hs pos :
  complete_table ps hs → wf_position ps pos →
  is_Some (computeFingerprint hs pos).
Proof.
  intros (Hp & Hturn & Hwc & Hbc & Hep) (Hboard & Hge).
  apply xor_all_is_Some. unfold active_features.
  assert (∀ (arr : list KeyPair) (i n : nat), length arr = n → (i < n)%nat →
            is_Some (arr !! i)) as Hlk.
  { intros arr i n Hlen Hi. apply lookup_lt_is_Some. lia. }
  apply Forall_app_2; [constructor; [apply Hturn | constructor]|].
  apply Forall_app_2.
  { apply Forall_concat, Forall_fmap, Forall_forall. intros i Hi.
    apply elem_of_seq in Hi. cbn. unfold square_feature.
    destruct (pos_board pos !! i) as [[p|]|] eqn:Hsq; try constructor; [|constructor].
    destruct (Hp p (Hboard i p Hsq)) as (arr & Harr & Hlen).
    unfold piece_key. rewrite Harr. cbn. apply (Hlk arr i 64%nat); [done | lia]. }
  assert (∀ (held : bool) (arr : list KeyPair) (i : nat),
            length arr = 2%nat → (i < 2)%nat →
            Forall is_Some (castling_feature held (arr !! i))) as Hc.
  { intros held arr i Hlen Hi. unfold castling_feature.
    destruct held; repeat constructor. by apply (Hlk _ _ 2%nat). }
  apply Forall_app_2; [apply Hc; [done | lia]|].
  apply Forall_app_2; [apply Hc; [done | lia]|].
  apply Forall_app_2; [apply Hc; [done | lia]|].
  apply Forall_app_2; [apply Hc; [done | lia]|].
  unfold ep_feature. destruct (decide (pos_ep pos = -1)); repeat constructor.
  pose proof (Z.mod_pos_bound (pos_ep pos) 8).
  apply (Hlk _ _ 8%nat); [done | lia].
Qed.

End ZobristFacts.

(** ** The initialisation of [hashes] *)

Section InitFacts.

Context {Piece : Type} `{Countable Piece}.
Variable mt : nat → Z.

Implicit Types (hs : Hashes (Piece := Piece)) (g : Globals (Piece := Piece)).
Implicit Types (p : Piece).

#[local] Arguments keys_from : simpl never.

Lemma bind_run {A B : Type} (c : M (Piece := Piece) A) (k : A → M B) g :
  bind c k g = match c g with Some (a, g') => k a g' | None => None end.
Proof. reflexivity. Qed.

Lemma keys_from_S n k :
  keys_from mt n (S k) = (mt n, mt (S n)) :: keys_from mt (S (S n)) k.
Proof.
  unfold keys_from. cbn [seq fmap list_fmap]. f_equal.
  - f_equal; f_equal; lia.
  - rewrite <- fmap_S_seq, <- list_fmap_compose.
    apply list_fmap_ext. intros _ i _. cbn. f_equal; f_equal; lia.
Qed.

Lemma keys_from_length n k : length (keys_from mt n k) = k.
Proof. unfold keys_from. by rewrite length_fmap, length_seq. Qed.

Lemma keys_from_lookup n k i :
  (i < k)%nat → keys_from mt n k !! i = Some (mt (n + 2 * i)%nat, mt (n + 2 * i + 1)%nat).
Proof.
  intros Hi. unfold keys_from. rewrite list_lookup_fmap, lookup_seq_lt by done. done.
Qed.

Lemma keys_from_int32 n k : (∀ i, int32 (mt i)) → Forall int32_pair (keys_from mt n k).
Proof.
  intros Hmt. unfold keys_from. apply Forall_fmap, Forall_forall.
  intros i _. split; apply Hmt.
Qed.

(** The loop that fills [hashes[p]]: [n] more key-pairs, [2 * n] calls of
    [rand()]. *)
Lemma push_piece_loop p n start g arr :
  hashes_piece (hashes g) !! p = Some arr →
  for_loop start n (λ _ _, push_piece mt p) () g =
    Some ((), mkGlobals (random g + 2 * n)
                (mkHashes (<[p := arr ++ keys_from mt (random g) n]> (hashes_piece (hashes g)))
                   (hashes_turn (hashes g)) (hashes_wc (hashes g))
                   (hashes_bc (hashes g)) (hashes_epFile (hashes g)))).
Proof.
  revert start g arr. induction n as [|n IH]; intros start [r hs] arr Harr; cbn in Harr.
  - cbn. unfold ret. rewrite app_nil_r, insert_id by done.
    destruct hs. do 2 f_equal. f_equal. lia.
  - cbn [for_loop]. unfold bind at 1. unfold push_piece at 1.
    unfold bind at 1. cbn. rewrite Harr. cbn.
    erewrite IH by (cbn; apply lookup_insert_eq).
    cbn. rewrite insert_insert_eq, keys_from_S, <- app_assoc. cbn -[keys_from].
     do 3 f_equal. lia.
Qed.

Lemma push_epFile_loop n start g :
  for_loop start n (λ _ _, push_epFile mt) () g =
    Some ((), mkGlobals (random g + 2 * n)
                (mkHashes (hashes_piece (hashes g)) (hashes_turn (hashes g))
                   (hashes_wc (hashes g)) (hashes_bc (hashes g))
                   (hashes_epFile (hashes g) ++ keys_from mt (random g) n))).
Proof.
  revert start g. induction n as [|n IH]; intros start [r hs].
  - cbn. unfold ret. rewrite app_nil_r. destruct hs. do 2 f_equal. f_equal. lia.
  - cbn [for_loop]. unfold bind at 1. cbn -[keys_from]. rewrite IH.
    cbn -[keys_from]. rewrite keys_from_S, <- app_assoc. cbn -[keys_from]. do 3 f_equal. lia.
Qed.

(** One run of the body of [pieces.forEach]: 156 calls of [rand()], and
    every field of [hashes] written. *)
Lemma init_piece_spec p g :
  ∃ g', init_piece mt p g = Some ((), g')
    ∧ random g' = (random g + 156)%nat
    ∧ hashes_piece (hashes g') = <[p := keys_from mt (random g) 64]> (hashes_piece (hashes g))
    ∧ (∀ c, hashes_turn (hashes g') c = Some (turn_key_at mt (random g) c))
    ∧ hashes_wc (hashes g') = keys_from mt (random g + 132) 2
    ∧ hashes_bc (hashes g') = keys_from mt (random g + 136) 2
    ∧ hashes_epFile (hashes g') = keys_from mt (random g + 140) 8.
Proof.
  destruct g as [r hs]. unfold init_piece.
  eexists. split.
  { rewrite bind_run. cbn -[for_loop].
    rewrite bind_run. erewrite push_piece_loop by (cbn; apply lookup_insert_eq).
    cbn -[for_loop].
    rewrite push_epFile_loop. cbn. reflexivity. }
  cbn.
  split; [lia|]. split; [by rewrite insert_insert_eq|].
  split.
  { intros []; cbn; repeat f_equal; lia. }
  unfold keys_from. cbn. repeat split; repeat f_equal; lia.
Qed.

Lemma forEach_app {A : Type} (xs ys : list A) (body : A → M (Piece := Piece) ()) g :
  forEach (xs ++ ys) body g = bind (forEach xs body) (λ _, forEach ys body) g.
Proof.
  revert g. induction xs as [|x xs IH]; intros g; [done|].
  cbn [app forEach]. rewrite !bind_run.
  destruct (body x g) as [[[] g1]|]; [|done]. apply IH.
Qed.

(** The whole loop over a list [ps] of pieces, from any state. *)
Lemma forEach_init_piece_spec (ps : list Piece) g :
  ∃ g', forEach ps (init_piece mt) g = Some ((), g')
    ∧ random g' = (random g + 156 * length ps)%nat
    ∧ (∀ p, (p ∈ ps ∧ ∃ j, (j < length ps)%nat
               ∧ hashes_piece (hashes g') !! p
                 = Some (keys_from mt (random g + 156 * j) 64))
            ∨ ((p ∉ ps) ∧ hashes_piece (hashes g') !! p = hashes_piece (hashes g) !! p))
    ∧ (∀ ps' p', ps = ps' ++ [p'] →
         let r := (random g + 156 * length ps')%nat in
         (∀ c, hashes_turn (hashes g') c = Some (turn_key_at mt r c))
         ∧ hashes_wc (hashes g') = keys_from mt (r + 132) 2
         ∧ hashes_bc (hashes g') = keys_from mt (r + 136) 2
         ∧ hashes_epFile (hashes g') = keys_from mt (r + 140) 8).
Proof.
  induction ps as [|p ps IH] using rev_ind.
  - exists g. split; [done|]. split; [cbn; lia|]. split.
    + intros p. right. split; [apply not_elem_of_nil | done].
    + intros ps' p' E. by destruct ps'.
  - destruct IH as (g1 & Hrun & Hr & Hpiece & _).
    destruct (init_piece_spec p g1) as (g2 & Hrun2 & Hr2 & Hp2 & Hturn & Hwc & Hbc & Hep).
    exists g2. split.
    { rewrite forEach_app, bind_run, Hrun. cbn [forEach].
      rewrite bind_run, Hrun2. done. }
    rewrite length_app. cbn [length].
    split; [lia|]. split.
    + intros q. rewrite Hp2. destruct (decide (q = p)) as [->|Hne].
      * left. split; [apply elem_of_app; right; by apply list_elem_of_singleton|].
        exists (length ps). split; [lia|]. rewrite lookup_insert_eq, Hr. done.
      * rewrite lookup_insert_ne by done.
        destruct (Hpiece q) as [(Hin & j & Hj & Hq)|(Hnin & Hq)].
        -- left. split; [apply elem_of_app; by left|].
           exists j. split; [lia | done].
        -- right. split; [|done]. intros [?|?%list_elem_of_singleton]%elem_of_app; done.
    + intros ps' p' E. apply app_inj_tail in E as [<- <-]. cbn zeta.
      rewrite <- Hr. done.
Qed.

End InitFacts.

(** ** Purity of [hash] *)

Section HashFacts.

Context {Piece : Type} `{Countable Piece}.

Implicit Types (hs : Hashes (Piece := Piece)) (pos : Position (Piece := Piece)).
Implicit Types (g : Globals (Piece := Piece)) (acc k : KeyPair).

Lemma pure_ret {A : Type} (a : A) : pure_M (Piece := Piece) (ret a).
Proof. by exists (Some a). Qed.

Lemma pure_throw {A : Type} : pure_M (Piece := Piece) (throw (A := A)).
Proof. by exists None. Qed.

Lemma pure_bind {A B : Type} (c : M A) (f : A → M B) :
  pure_M (Piece := Piece) c → (∀ a, pure_M (f a)) → pure_M (bind c f).
Proof.
  intros [o Ho] Hf. destruct o as [a|].
  - destruct (Hf a) as [o' Ho']. exists o'. intros g.
    unfold bind. rewrite Ho. cbn. apply Ho'.
  - exists None. intros g. unfold bind. by rewrite Ho.
Qed.

Lemma pure_applyHashes (key : option KeyPair) acc :
  pure_M (Piece := Piece) (applyHashes key acc).
Proof. destruct key; [apply pure_ret | apply pure_throw]. Qed.

Lemma pure_applyHashes_if (cond : bool) (key : option KeyPair) acc :
  pure_M (Piece := Piece) (applyHashes_if cond key acc).
Proof. destruct cond; [apply pure_applyHashes | apply pure_ret]. Qed.

Lemma pure_for_loop {St : Type} (body : nat → St → M St) start n (s : St) :
  (∀ i s', pure_M (Piece := Piece) (body i s')) → pure_M (for_loop start n body s).
Proof.
  intros Hbody. revert start s.
  induction n as [|n IH]; intros start s; cbn [for_loop].
  - apply pure_ret.
  - apply pure_bind; auto.
Qed.

Lemma pure_hash_square hs pos i acc : pure_M (hash_square hs pos i acc).
Proof.
  unfold hash_square.
  destruct (pos_board pos !! i) as [[p|]|];
    [apply pure_applyHashes | apply pure_ret | apply pure_ret].
Qed.

Lemma for_loop_ext {St : Type} (body body' : nat → St → M (Piece := Piece) St)
    start n (s : St) g :
  (∀ i s' g', (start ≤ i < start + n)%nat → body i s' g' = body' i s' g') →
  for_loop start n body s g = for_loop start n body' s g.
Proof.
  revert start s g. induction n as [|n IH]; intros start s g Hext; [done|].
  cbn [for_loop]. unfold bind. rewrite Hext by lia.
  destruct (body' start s g) as [[s1 g1]|]; [|done].
  apply IH. intros i s' g' Hi. apply Hext. lia.
Qed.

Lemma hash_square_same_features (p q : Position (Piece := Piece)) hs i acc g :
  same_features p q → (i < 64)%nat → hash_square hs p i acc g = hash_square hs q i acc g.
Proof.
  intros (Hboard & _) Hi. specialize (Hboard i Hi). unfold hash_square.
  destruct (pos_board p !! i) as [[x|]|], (pos_board q !! i) as [[y|]|];
    cbn in Hboard; by simplify_eq.
Qed.

(** [hash] reads the module's state only through [hashes], and what it
    reads of the position are its features. *)
Lemma hash_pure (p q : Position (Piece := Piece)) hs :
  same_features p q →
  ∃ o : option KeyPair,
    ∀ g, hashes g = hs →
      hash p g = (o ≫= λ fp, Some (fp, g)) ∧ hash q g = (o ≫= λ fp, Some (fp, g)).
Proof.
  intros Hsame.
  set (body := λ pos : Position (Piece := Piece),
    bind (applyHashes (hashes_turn hs (pos_turn pos)) (0, 0)) (λ acc,
    bind (for_loop 0 64 (hash_square hs pos) acc) (λ acc,
    bind (applyHashes_if (pos_wc pos).1 (hashes_wc hs !! 0%nat) acc) (λ acc,
    bind (applyHashes_if (pos_wc pos).2 (hashes_wc hs !! 1%nat) acc) (λ acc,
    bind (applyHashes_if (pos_bc pos).1 (hashes_bc hs !! 0%nat) acc) (λ acc,
    bind (applyHashes_if (pos_bc pos).2 (hashes_bc hs !! 1%nat) acc) (λ acc,
    bind (applyHashes_if (bool_decide (pos_ep pos ≠ -1))
            (js_index (hashes_epFile hs) (Z.rem (pos_ep pos) 8)) acc) (λ acc,
    ret acc)))))))).
  assert (pure_M (body p)) as [o Ho].
  { unfold body. apply pure_bind; [apply pure_applyHashes|]. intros ?.
    apply pure_bind; [apply pure_for_loop; intros; apply pure_hash_square|]. intros ?.
    do 5 (apply pure_bind; [apply pure_applyHashes_if|]; intros ?).
    apply pure_ret. }
  assert (∀ g, body q g = body p g) as Hqp.
  { intros g. unfold body. pose proof Hsame as (Hb & Ht & Hw & Hc & He).
    rewrite <- Ht, <- Hw, <- Hc, <- He.
    rewrite !bind_run.
    destruct (applyHashes (hashes_turn hs (pos_turn p)) (0, 0) g) as [[acc g1]|]; [|done].
    rewrite !bind_run.
    rewrite (for_loop_ext (hash_square hs q) (hash_square hs p)); [done|].
    intros i s' g' Hi. symmetry. apply hash_square_same_features; [done | lia]. }
  exists o. intros g <-. split; [apply Ho|]. rewrite <- Ho, <- Hqp. done.
Qed.

(** *** XOR of a key into a fingerprint *)

Lemma xor_keys_swap a j k : xor_keys (xor_keys a j) k = xor_keys (xor_keys a k) j.
Proof.
  unfold xor_keys. cbn. f_equal; rewrite !Z.lxor_assoc; f_equal; apply Z.lxor_comm.
Qed.

Lemma xor_all_xor_acc acc k keys :
  xor_all (xor_keys acc k) keys = (λ a, xor_keys a k) <$> xor_all acc keys.
Proof.
  revert acc. induction keys as [|[j|] keys IH]; intros acc; cbn; [done| |done].
  rewrite <- IH. f_equal. apply xor_keys_swap.
Qed.

Lemma xor_all_insert acc k keys1 keys2 :
  xor_all acc (keys1 ++ Some k :: keys2)
  = (λ a, xor_keys a k) <$> xor_all acc (keys1 ++ keys2).
Proof.
  revert acc. induction keys1 as [|[j|] keys1 IH]; intros acc; cbn; [|apply IH|done].
  apply xor_all_xor_acc.
Qed.

Lemma xor_all_int32 acc keys fp :
  int32_pair acc → Forall (λ key, ∀ k, key = Some k → int32_pair k) keys →
  xor_all acc keys = Some fp → int32_pair fp.
Proof.
  intros Hacc Hkeys. revert acc Hacc.
  induction Hkeys as [|[k|] keys Hk _ IH]; intros acc Hacc; cbn; [by intros [= <-]| |done].
  apply IH, xor_keys_int32; auto.
Qed.

Lemma applyHashes_xor_keys acc k g :
  int32_pair acc → int32_pair k →
  applyHashes (Some k) acc g = Some (xor_keys acc k, g).
Proof.
  intros [??] [??]. cbn. unfold ret, xor_keys. by rewrite !xor32_lxor.
Qed.

Lemma applyHashes_twice acc k g :
  int32_pair acc →
  bind (applyHashes (Some k) acc) (applyHashes (Some k)) g = Some (acc, g).
Proof.
  intros [Hl Hh]. unfold bind. cbn. unfold ret.
  rewrite !xor32_twice by done. by destruct acc.
Qed.

End HashFacts.

(** ** The table after initialisation, and the claims on the hash *)

Section ZobristClaims.

Context {Piece : Type} `{Countable Piece}.
Variable mt : nat → Z.

Implicit Types (hs : Hashes (Piece := Piece)) (pos : Position (Piece := Piece)).
Implicit Types (g : Globals (Piece := Piece)) (acc k : KeyPair).

(** With a generator of 32-bit integers and at least one piece, the
    initialisation succeeds and leaves a complete table of 32-bit
    integers. *)
Lemma init_table (pieces : list Piece) :
  (∀ i, int32 (mt i)) → pieces ≠ [] →
  ∃ g, init mt pieces globals0 = Some ((), g)
    ∧ int32_table (hashes g) ∧ complete_table pieces (hashes g).
Proof.
  intros Hmt Hne. unfold init.
  destruct (forEach_init_piece_spec mt pieces globals0)
    as (g & Hrun & _ & Hpiece & Hlast).
  destruct (exists_last Hne) as (ps' & p' & ->).
  destruct (Hlast ps' p' eq_refl) as (Hturn & Hwc & Hbc & Hep).
  exists g. split; [done|]. split.
  - split; [|split; [|split; [|split]]].
    + intros p arr Harr.
      destruct (Hpiece p) as [(_ & j & _ & Hj)|(_ & Hj)]; rewrite Hj in Harr.
      * injection Harr as <-. by apply keys_from_int32.
      * cbn in Harr. by rewrite lookup_empty in Harr.
    + intros c k. rewrite Hturn. intros [= <-]. destruct c; split; apply Hmt.
    + rewrite Hwc. by apply keys_from_int32.
    + rewrite Hbc. by apply keys_from_int32.
    + rewrite Hep. by apply keys_from_int32.
  - split; [|split; [|split; [|split]]].
    + intros p Hp.
      destruct (Hpiece p) as [(_ & j & _ & Hj)|(Hnin & _)]; [|done].
      eexists. split; [done|]. apply keys_from_length.
    + intros c. rewrite Hturn. eauto.
    + rewrite Hwc. apply keys_from_length.
    + rewrite Hbc. apply keys_from_length.
    + rewrite Hep. apply keys_from_length.
Qed.

Lemma xor_keys_twice a k : xor_keys (xor_keys a k) k = a.
Proof.
  unfold xor_keys. cbn.
  rewrite !Z.lxor_assoc, !Z.lxor_nilpotent, !Z.lxor_0_r. by destruct a.
Qed.

(** Toggling a castling right XORs its key-pair into the fingerprint. *)
Lemma computeFingerprint_toggle hs pos kq :
  hashes_wc hs !! 0%nat = Some kq →
  computeFingerprint hs (toggle_wc_queenside pos)
  = (λ a, xor_keys a kq) <$> computeFingerprint hs pos.
Proof.
  intros Hkq. unfold computeFingerprint, active_features.
  change (pos_turn (toggle_wc_queenside pos)) with (pos_turn pos).
  change (square_feature hs (toggle_wc_queenside pos)) with (square_feature hs pos).
  change (ep_feature hs (toggle_wc_queenside pos)) with (ep_feature hs pos).
  change (pos_bc (toggle_wc_queenside pos)) with (pos_bc pos).
  change (pos_wc (toggle_wc_queenside pos)).2 with (pos_wc pos).2.
  change (pos_wc (toggle_wc_queenside pos)).1 with (negb (pos_wc pos).1).
  rewrite Hkq.
  set (sq := concat (square_feature hs pos <$> seq 0 64)).
  set (rest := castling_feature (pos_wc pos).2 _ ++ _).
  rewrite !(app_assoc [_] sq).
  set (pre := [hashes_turn hs (pos_turn pos)] ++ sq).
  destruct (pos_wc pos).1; cbn [negb castling_feature].
  - change ([Some kq] ++ rest) with (Some kq :: rest).
    change ([] ++ rest) with rest.
    rewrite xor_all_insert.
    destruct (xor_all (0, 0) (pre ++ rest)) as [a|]; cbn; [|done].
    by rewrite xor_keys_twice.
  - change ([Some kq] ++ rest) with (Some kq :: rest).
    change ([] ++ rest) with rest.
    by rewrite xor_all_insert.
Qed.

(** C5: the table is built when the module is loaded, but not with two
    draws per feature: the turn, castling and en-passant key-pairs are drawn
    again in every run of the loop over the pieces.  With the pieces
    [ps ++ [p]] the generator is called 156 times per piece, which is twice
    the number of features only when there is one piece, and the key-pairs
    left in [hashes.turn], [hashes.wc], [hashes.bc] and [hashes.epFile] are
    the ones drawn in the last run, for [p]. *)
Theorem init_draws_keys_per_piece (ps : list Piece) (p : Piece) :
  ∃ g, init mt (ps ++ [p]) globals0 = Some ((), g)
    ∧ random g = (156 * length (ps ++ [p]))%nat
    ∧ (random g = (2 * feature_count (length (ps ++ [p])))%nat ↔ ps = [])
    ∧ (∀ c, hashes_turn (hashes g) c = Some (turn_key_at mt (156 * length ps) c))
    ∧ hashes_wc (hashes g) = keys_from mt (156 * length ps + 132) 2
    ∧ hashes_bc (hashes g) = keys_from mt (156 * length ps + 136) 2
    ∧ hashes_epFile (hashes g) = keys_from mt (156 * length ps + 140) 8.
Proof.
  unfold init.
  destruct (forEach_init_piece_spec mt (ps ++ [p]) globals0)
    as (g & Hrun & Hr & _ & Hlast).
  destruct (Hlast ps p eq_refl) as (Hturn & Hwc & Hbc & Hep).
  cbn in Hr, Hturn, Hwc, Hbc, Hep.
  exists g. split; [done|]. split; [done|]. split; [|done].
  rewrite Hr, length_app. unfold feature_count. cbn [length].
  destruct ps; cbn [length]; split; intros; (done || lia).
Qed.

(** C6: on a table of 32-bit integers and a position whose [ep] is [-1] or
    a square, [hash] returns what the specification's algorithm computes
    (or throws where the table lacks a key the algorithm needs), and when
    the table is complete for the pieces of the position it does return a
    fingerprint. *)
Theorem hash_computes_fingerprint pos g :
  int32_table (hashes g) → -1 ≤ pos_ep pos →
  hash pos g = (computeFingerprint (hashes g) pos ≫= λ fp, Some (fp, g))
  ∧ (∀ ps, complete_table ps (hashes g) → wf_position ps pos →
       ∃ fp, computeFingerprint (hashes g) pos = Some fp ∧ hash pos g = Some (fp, g)).
Proof.
  intros Hhs Hep. destruct (hash_refines pos g Hhs Hep) as [Hhash _].
  split; [done|]. intros ps Hc Hwf.
  destruct (computeFingerprint_is_Some ps (hashes g) pos Hc Hwf) as [fp Hfp].
  exists fp. split; [done|]. by rewrite Hhash, Hfp.
Qed.

(** C7: XOR-ing the same key-pair twice into a fingerprint restores it;
    and the fingerprint of a position with White's queenside castling right
    toggled is the fingerprint of the position with that right's key-pair
    XOR-ed in, so that toggling twice gives the fingerprint back. *)
Theorem applyHashes_involution :
  (∀ acc k g, int32_pair acc →
     bind (applyHashes (Some k) acc) (applyHashes (Some k)) g = Some (acc, g))
  ∧ (∀ pos g kq fp,
       int32_table (hashes g) → -1 ≤ pos_ep pos →
       hashes_wc (hashes g) !! 0%nat = Some kq →
       hash pos g = Some (fp, g) →
       ∃ fp', hash (toggle_wc_queenside pos) g = Some (fp', g)
         ∧ applyHashes (Some kq) fp g = Some (fp', g)
         ∧ applyHashes (Some kq) fp' g = Some (fp, g)
         ∧ hash (toggle_wc_queenside (toggle_wc_queenside pos)) g = Some (fp, g)).
Proof.
  split; [apply applyHashes_twice|].
  intros pos g kq fp Hhs Hep Hkq Hhash.
  destruct (hash_refines pos g Hhs Hep) as [Hpos Hint].
  destruct (hash_refines (toggle_wc_queenside pos) g Hhs Hep) as [Htog _].
  rewrite Hhash in Hpos.
  destruct (computeFingerprint (hashes g) pos) as [fp0|] eqn:Hfp; [|done].
  cbn in Hpos. injection Hpos as ->.
  assert (int32_pair kq) as Hkq32.
  { destruct Hhs as (_ & _ & Hwc & _). exact (Forall_lookup_1 _ _ _ _ Hwc Hkq). }
  assert (int32_pair fp0) as Hfp32 by by apply Hint.
  rewrite (computeFingerprint_toggle _ _ _ Hkq), Hfp in Htog. cbn in Htog.
  exists (xor_keys fp0 kq). split; [done|].
  split; [by apply applyHashes_xor_keys|].
  split.
  - rewrite applyHashes_xor_keys by (try apply xor_keys_int32; done).
    by rewrite xor_keys_twice.
  - destruct (hash_refines (toggle_wc_queenside (toggle_wc_queenside pos)) g Hhs Hep)
      as [Htog2 _].
    rewrite !(computeFingerprint_toggle _ _ _ Hkq), Hfp in Htog2. cbn in Htog2.
    by rewrite xor_keys_twice in Htog2.
Qed.

(** C8: [hash] is deterministic and pure.  Called on two positions with the
    same features, in two states of the module with the same table, it
    returns the same outcome (the same bits, or it throws in both), and it
    leaves the state, the key table included, as it found it. *)
Theorem hash_deterministic_pure (p q : Position (Piece := Piece)) g g' :
  same_features p q → hashes g = hashes g' →
  ∃ o : option KeyPair,
    hash p g = (o ≫= λ fp, Some (fp, g)) ∧ hash q g' = (o ≫= λ fp, Some (fp, g')).
Proof.
  intros Hsame Hhs. destruct (hash_pure p q (hashes g) Hsame) as [o Ho].
  exists o. split; [by apply Ho | by apply Ho].
Qed.

End ZobristClaims.

(** ** The LRU cache *)

Section LRUFacts.

Context {Move : Type}.

Implicit Types (m : LRU.JsMap Move) (c : LRU.LRU (Move := Move)).
Implicit Types (arr : gmap Z (Entry Move)) (k low : Z) (hash : KeyPair).
Implicit Types (ops : list (Op Move)) (op : Op Move) (val : Entry Move).

(** *** The insertion-ordered map *)

Lemma Map_get_delete m k k' :
  LRU.Map_get (LRU.Map_delete m k) k' = if decide (k' = k) then None else LRU.Map_get m k'.
Proof.
  unfold LRU.Map_delete. induction m as [|[j v] m IH].
  - cbn. by case_decide.
  - rewrite filter_cons. cbn [fst LRU.Map_get].
    destruct (decide (j ≠ k)) as [Hne|Heq]; cbn [LRU.Map_get].
    + rewrite IH. repeat case_decide; congruence.
    + rewrite IH. apply dec_stable in Heq. repeat case_decide; congruence.
Qed.

Lemma Map_get_set m k arr k' :
  LRU.Map_get (LRU.Map_set m k arr) k' = if decide (k' = k) then Some arr else LRU.Map_get m k'.
Proof.
  induction m as [|[j v] m IH]; cbn.
  - repeat case_decide; congruence.
  - destruct (decide (j = k)) as [->|Hne]; cbn.
    + repeat case_decide; congruence.
    + rewrite IH. repeat case_decide; congruence.
Qed.

Lemma Map_get_None m k : LRU.Map_get m k = None ↔ k ∉ LRU.Map_keys m.
Proof.
  unfold LRU.Map_keys. induction m as [|[j v] m IH]; cbn.
  - split; [intros _; apply not_elem_of_nil | done].
  - rewrite not_elem_of_cons. case_decide as Hjk.
    + split; [done | intros [Hne _]; by destruct Hne].
    + rewrite IH. split; [intros ?; split; [intros ->; done | done] | by intros [_ ?]].
Qed.

Lemma Map_get_Some m k arr : LRU.Map_get m k = Some arr → k ∈ LRU.Map_keys m.
Proof.
  intros Hget. destruct (decide (k ∈ LRU.Map_keys m)) as [|Hn]; [done|].
  apply Map_get_None in Hn. congruence.
Qed.

Lemma Map_keys_delete m k :
  LRU.Map_keys (LRU.Map_delete m k) = filter (λ j, j ≠ k) (LRU.Map_keys m).
Proof.
  unfold LRU.Map_keys, LRU.Map_delete. induction m as [|[j v] m IH]; [done|].
  rewrite fmap_cons, !filter_cons. cbn [fst].
  case_decide; [rewrite fmap_cons|]; by rewrite IH.
Qed.

Lemma Map_keys_set_fresh m k arr :
  k ∉ LRU.Map_keys m → LRU.Map_keys (LRU.Map_set m k arr) = LRU.Map_keys m ++ [k].
Proof.
  unfold LRU.Map_keys. induction m as [|[j v] m IH]; [done|].
  cbn. intros [Hne Hnin]%not_elem_of_cons.
  rewrite decide_False by done. cbn. by rewrite IH.
Qed.

Lemma not_elem_of_Map_keys_delete m k : k ∉ LRU.Map_keys (LRU.Map_delete m k).
Proof. rewrite Map_keys_delete, list_elem_of_filter. intros [Hne _]. by apply Hne. Qed.

(** The keys after [m.delete(k); m.set(k, arr)]: [k] has moved to the end. *)
Lemma Map_keys_refresh m k arr :
  LRU.Map_keys (LRU.Map_set (LRU.Map_delete m k) k arr)
  = filter (λ j, j ≠ k) (LRU.Map_keys m) ++ [k].
Proof.
  rewrite Map_keys_set_fresh by apply not_elem_of_Map_keys_delete.
  by rewrite Map_keys_delete.
Qed.

Lemma Map_size_keys m : LRU.Map_size m = Z.of_nat (length (LRU.Map_keys m)).
Proof. unfold LRU.Map_size, LRU.Map_keys. by rewrite length_fmap. Qed.

Lemma filter_ne_not_elem_of (ks : list Z) k : k ∉ ks → filter (λ j, j ≠ k) ks = ks.
Proof.
  induction ks as [|j ks IH]; [done|]. intros [Hne Hnin]%not_elem_of_cons.
  rewrite filter_cons. rewrite decide_True by done. by rewrite IH.
Qed.

Lemma length_filter_ne_NoDup (ks : list Z) k :
  NoDup ks → k ∈ ks → S (length (filter (λ j, j ≠ k) ks)) = length ks.
Proof.
  induction 1 as [|j ks Hnin Hnd IH]; [by intros ?%elem_of_nil|].
  rewrite filter_cons. intros [->|Hin]%elem_of_cons.
  - rewrite decide_False by (intros ?; done).
    by rewrite filter_ne_not_elem_of.
  - rewrite decide_True by (intros ->; done). cbn. by rewrite IH.
Qed.

Lemma Map_first_key_keys m : LRU.Map_first_key m = head (LRU.Map_keys m).
Proof. by destruct m. Qed.

(** *** Recency *)

Lemma last_touch_snoc ops op low :
  last_touch (ops ++ [op]) low
  = if decide ((op_hash op).1 = low) then S (length ops) else last_touch ops low.
Proof.
  unfold last_touch. rewrite foldl_snoc. cbn.
  assert (∀ (l : list (Op Move)) st,
    (foldl (λ (st : nat * nat) op,
              (S st.1, if decide ((op_hash op).1 = low) then S st.1 else st.2)) st l).1
    = (st.1 + length l)%nat) as Hlen.
  { induction l as [|x l IH]; intros st; cbn; [lia|]. rewrite IH. cbn. lia. }
  rewrite Hlen. cbn. done.
Qed.

Lemma last_touch_le ops low : (last_touch ops low ≤ length ops)%nat.
Proof.
  induction ops as [|op ops IH] using rev_ind; [done|].
  rewrite last_touch_snoc, length_app. cbn. case_decide; lia.
Qed.

Lemma by_last_touch_NoDup ops ks : by_last_touch ops ks → NoDup ks.
Proof.
  induction 1 as [|k ks _ IH Hall]; constructor; [|done].
  intros Hin. rewrite Forall_forall in Hall. specialize (Hall k Hin). lia.
Qed.

Lemma by_last_touch_filter ops ks (P : Z → Prop) `{∀ k, Decision (P k)} :
  by_last_touch ops ks → by_last_touch ops (filter P ks).
Proof.
  induction 1 as [|k ks _ IH Hall]; [constructor|].
  rewrite filter_cons. case_decide; [|done].
  constructor; [done|].
  rewrite Forall_forall in Hall |- *. intros k' [_ Hk']%list_elem_of_filter. auto.
Qed.

Lemma by_last_touch_snoc_other ops op ks :
  (op_hash op).1 ∉ ks → by_last_touch ops ks → by_last_touch (ops ++ [op]) ks.
Proof.
  intros Hnin Hs. induction Hs as [|k ks _ IH Hall]; [constructor|].
  apply not_elem_of_cons in Hnin as [Hne Hnin].
  constructor; [by apply IH|].
  rewrite Forall_forall in Hall |- *. intros k' Hk'.
  assert ((op_hash op).1 ≠ k') as Hne' by (intros E; by rewrite E in Hnin).
  rewrite !last_touch_snoc, !decide_False by done. by apply Hall.
Qed.

(** A touch of [low] moves it behind every other key. *)
Lemma by_last_touch_refresh ops op ks :
  by_last_touch ops ks →
  by_last_touch (ops ++ [op])
    (filter (λ j, j ≠ (op_hash op).1) ks ++ [(op_hash op).1]).
Proof.
  intros Hs. apply StronglySorted_app_2.
  - intros k1 k2 [Hne _]%list_elem_of_filter ->%list_elem_of_singleton.
    rewrite !last_touch_snoc. pose proof (last_touch_le ops k1).
    repeat case_decide; (congruence || lia).
  - apply by_last_touch_snoc_other.
    + rewrite list_elem_of_filter. intros [Hne _]. by apply Hne.
    + by apply by_last_touch_filter.
  - repeat constructor.
Qed.

(** *** The cache *)

Lemma Map_keys_add_store c hash val :
  LRU.Map_keys (LRU.map (LRU.add_store c hash val))
  = filter (λ j, j ≠ hash.1) (LRU.Map_keys (LRU.map c)) ++ [hash.1].
Proof.
  unfold LRU.add_store.
  destruct (LRU.Map_get (LRU.map c) hash.1) as [arr|] eqn:Hget; cbn [LRU.map].
  - apply Map_keys_refresh.
  - apply Map_get_None in Hget.
    by rewrite Map_keys_set_fresh, filter_ne_not_elem_of.
Qed.

Lemma Map_keys_get c hash :
  LRU.Map_keys (LRU.map (LRU.get c hash).2)
  = match LRU.Map_get (LRU.map c) hash.1 with
    | Some _ => filter (λ j, j ≠ hash.1) (LRU.Map_keys (LRU.map c)) ++ [hash.1]
    | None => LRU.Map_keys (LRU.map c)
    end.
Proof.
  unfold LRU.get.
  destruct (LRU.Map_get (LRU.map c) hash.1) as [arr|]; cbn [snd LRU.map]; [|done].
  apply Map_keys_refresh.
Qed.

Lemma maxSize_add_store c hash val :
  LRU.maxSize (LRU.add_store c hash val) = LRU.maxSize c.
Proof. unfold LRU.add_store. by destruct (LRU.Map_get _ _). Qed.

Lemma maxSize_add_evict c : LRU.maxSize (LRU.add_evict c) = LRU.maxSize c.
Proof.
  unfold LRU.add_evict. case_decide; [|done]. by destruct (LRU.Map_first_key _).
Qed.

Lemma maxSize_step c op : LRU.maxSize (LRU.step c op) = LRU.maxSize c.
Proof.
  destruct op as [hash|hash val]; cbn.
  - unfold LRU.get. by destruct (LRU.Map_get _ _).
  - unfold LRU.add. by rewrite maxSize_add_evict, maxSize_add_store.
Qed.

Lemma maxSize_run c ops : LRU.maxSize (LRU.run c ops) = LRU.maxSize c.
Proof.
  unfold LRU.run. induction ops as [|op ops IH] using rev_ind; [done|].
  by rewrite foldl_snoc, maxSize_step.
Qed.

(** What the eviction does on a map with more than [maxSize] keys: the
    first key goes, with its whole group. *)
Lemma add_evict_spec c k0 ks :
  LRU.Map_keys (LRU.map c) = k0 :: ks → NoDup (k0 :: ks) →
  LRU.maxSize c < LRU.size c →
  LRU.Map_first_key (LRU.map c) = Some k0
  ∧ LRU.map (LRU.add_evict c) = LRU.Map_delete (LRU.map c) k0
  ∧ LRU.Map_keys (LRU.map (LRU.add_evict c)) = ks
  ∧ LRU.size (LRU.add_evict c) = LRU.size c - 1.
Proof.
  intros Hks Hnd Hlt.
  assert (LRU.Map_first_key (LRU.map c) = Some k0) as Hfirst
    by by rewrite Map_first_key_keys, Hks.
  assert (LRU.map (LRU.add_evict c) = LRU.Map_delete (LRU.map c) k0) as Hmap.
  { unfold LRU.add_evict. rewrite decide_True by done. by rewrite Hfirst. }
  assert (LRU.Map_keys (LRU.map (LRU.add_evict c)) = ks) as Hkeys.
  { rewrite Hmap, Map_keys_delete, Hks, filter_cons.
    rewrite decide_False by (intros ?; done).
    apply filter_ne_not_elem_of. by apply NoDup_cons_1_1. }
  repeat split; try done.
  unfold LRU.size. rewrite !Map_size_keys, Hkeys, Hks. cbn [length]. lia.
Qed.

Lemma add_evict_id c : ¬ LRU.maxSize c < LRU.size c → LRU.add_evict c = c.
Proof. intros Hle. unfold LRU.add_evict. by rewrite decide_False. Qed.

(** The invariant of a run: the keys of the map are in the order of their
    last touch. *)
Lemma by_last_touch_step ops op c :
  by_last_touch ops (LRU.Map_keys (LRU.map c)) →
  by_last_touch (ops ++ [op]) (LRU.Map_keys (LRU.map (LRU.step c op))).
Proof.
  intros Hs. destruct op as [hash|hash val]; cbn [LRU.step].
  - rewrite Map_keys_get.
    destruct (LRU.Map_get (LRU.map c) hash.1) as [arr|] eqn:Hget.
    + apply (by_last_touch_refresh ops (OpGet hash)). done.
    + apply by_last_touch_snoc_other; [|done]. by apply Map_get_None.
  - unfold LRU.add.
    pose proof (by_last_touch_refresh ops (OpAdd hash val) _ Hs) as Hmid.
    cbn [op_hash] in Hmid. rewrite <- (Map_keys_add_store c hash val) in Hmid.
    destruct (decide (LRU.maxSize (LRU.add_store c hash val)
                      < LRU.size (LRU.add_store c hash val))) as [Hlt|Hle].
    + destruct (LRU.Map_keys (LRU.map (LRU.add_store c hash val))) as [|k0 ks] eqn:Hks.
      { rewrite Map_keys_add_store in Hks. by destruct (filter _ _). }
      destruct (add_evict_spec _ k0 ks Hks (by_last_touch_NoDup _ _ Hmid) Hlt)
        as (_ & _ & -> & _).
      by apply StronglySorted_inv in Hmid as [? _].
    + by rewrite add_evict_id.
Qed.

Lemma by_last_touch_run ops c0 :
  LRU.map c0 = [] → by_last_touch ops (LRU.Map_keys (LRU.map (LRU.run c0 ops))).
Proof.
  intros Hc0. unfold LRU.run. induction ops as [|op ops IH] using rev_ind.
  - cbn. rewrite Hc0. constructor.
  - rewrite foldl_snoc. by apply by_last_touch_step.
Qed.

Lemma size_get c hash :
  NoDup (LRU.Map_keys (LRU.map c)) → LRU.size (LRU.get c hash).2 = LRU.size c.
Proof.
  intros Hnd. unfold LRU.size. rewrite !Map_size_keys, Map_keys_get.
  destruct (LRU.Map_get (LRU.map c) hash.1) as [arr|] eqn:Hget; [|done].
  rewrite length_app. cbn [length].
  rewrite <- (length_filter_ne_NoDup _ hash.1 Hnd); [lia|].
  by eapply Map_get_Some.
Qed.

(** The store of [add]: one more group, or as many when the group was
    there. *)
Lemma size_add_store c hash val :
  NoDup (LRU.Map_keys (LRU.map c)) →
  LRU.size (LRU.add_store c hash val)
  = match LRU.Map_get (LRU.map c) hash.1 with
    | Some _ => LRU.size c
    | None => LRU.size c + 1
    end.
Proof.
  intros Hnd. unfold LRU.size. rewrite !Map_size_keys, Map_keys_add_store.
  rewrite length_app. cbn [length].
  destruct (LRU.Map_get (LRU.map c) hash.1) as [arr|] eqn:Hget.
  - rewrite <- (length_filter_ne_NoDup _ hash.1 Hnd); [lia|].
    by eapply Map_get_Some.
  - apply Map_get_None in Hget. rewrite filter_ne_not_elem_of by done. lia.
Qed.

Lemma NoDup_keys_add_store c hash val :
  NoDup (LRU.Map_keys (LRU.map c)) →
  NoDup (LRU.Map_keys (LRU.map (LRU.add_store c hash val))).
Proof.
  intros Hnd. rewrite Map_keys_add_store. apply NoDup_app. split; [|split].
  - by apply NoDup_filter.
  - intros k [Hne _]%list_elem_of_filter ->%list_elem_of_singleton. done.
  - apply NoDup_singleton.
Qed.

Lemma Map_keys_add_store_cons c hash val :
  ∃ k0 ks, LRU.Map_keys (LRU.map (LRU.add_store c hash val)) = k0 :: ks.
Proof.
  rewrite Map_keys_add_store.
  destruct (filter _ _) as [|k0 ks]; cbn [app]; eauto.
Qed.

Lemma size_add_le c hash val (bound : Z) :
  NoDup (LRU.Map_keys (LRU.map c)) →
  LRU.size c ≤ bound → LRU.maxSize c ≤ bound →
  LRU.size (LRU.add c hash val) ≤ bound.
Proof.
  intros Hnd Hle Hmax. unfold LRU.add.
  pose proof (NoDup_keys_add_store c hash val Hnd) as Hndmid.
  pose proof (size_add_store c hash val Hnd) as Hsz.
  pose proof (maxSize_add_store c hash val) as Hmid.
  destruct (Map_keys_add_store_cons c hash val) as (k0 & ks & Hks).
  set (mid := LRU.add_store c hash val) in *.
  destruct (decide (LRU.maxSize mid < LRU.size mid)) as [Hlt|Hge].
  - rewrite Hks in Hndmid.
    destruct (add_evict_spec mid k0 ks Hks Hndmid Hlt) as (_ & _ & _ & ->).
    destruct (LRU.Map_get (LRU.map c) hash.1); lia.
  - rewrite add_evict_id by done. lia.
Qed.

Lemma NoDup_keys_run c0 ops :
  LRU.map c0 = [] → NoDup (LRU.Map_keys (LRU.map (LRU.run c0 ops))).
Proof. intros Hc0. exact (by_last_touch_NoDup _ _ (by_last_touch_run ops c0 Hc0)). Qed.

Lemma run_snoc c0 ops op : LRU.run c0 (ops ++ [op]) = LRU.step (LRU.run c0 ops) op.
Proof. unfold LRU.run. by rewrite foldl_snoc. Qed.

(** The number of groups never exceeds [maxSize] (or [0], for a [maxSize]
    below [0]). *)
Lemma size_run_le c0 ops :
  LRU.map c0 = [] → LRU.size (LRU.run c0 ops) ≤ Z.max 0 (LRU.maxSize c0).
Proof.
  intros Hc0. induction ops as [|op ops IH] using rev_ind.
  - cbn. unfold LRU.size, LRU.Map_size. rewrite Hc0. cbn. lia.
  - pose proof (NoDup_keys_run c0 ops Hc0) as Hnd.
    rewrite run_snoc. destruct op as [hash|hash val]; cbn [LRU.step].
    + by rewrite size_get.
    + apply size_add_le; [done | done |]. rewrite maxSize_run. lia.
Qed.

Lemma elem_of_Map_keys_add_evict c k :
  k ∈ LRU.Map_keys (LRU.map (LRU.add_evict c)) → k ∈ LRU.Map_keys (LRU.map c).
Proof.
  unfold LRU.add_evict. case_decide; [|done].
  destruct (LRU.Map_first_key (LRU.map c)) as [k0|]; cbn [LRU.map]; [|done].
  rewrite Map_keys_delete. by intros [_ ?]%list_elem_of_filter.
Qed.

(** A group of the cache was there before the call, or the call is on it:
    an [add], or a [get] that found it. *)
Lemma elem_of_Map_keys_step c op k :
  k ∈ LRU.Map_keys (LRU.map (LRU.step c op)) →
  (k ≠ (op_hash op).1 ∧ k ∈ LRU.Map_keys (LRU.map c))
  ∨ (k = (op_hash op).1
     ∧ ((∃ hash val, op = OpAdd hash val) ∨ k ∈ LRU.Map_keys (LRU.map c))).
Proof.
  destruct op as [hash|hash val]; cbn [LRU.step op_hash].
  - rewrite Map_keys_get.
    destruct (LRU.Map_get (LRU.map c) hash.1) as [arr|] eqn:Hget.
    + intros [[Hne Hin]%list_elem_of_filter | ->%list_elem_of_singleton]%elem_of_app.
      * by left.
      * right. split; [done|]. right. by eapply Map_get_Some.
    + intros Hin. destruct (decide (k = hash.1)) as [->|Hne]; [|by left].
      right. split; [done|]. by right.
  - intros Hin%elem_of_Map_keys_add_evict. rewrite Map_keys_add_store in Hin.
    apply elem_of_app in Hin as [[Hne Hin]%list_elem_of_filter | ->%list_elem_of_singleton].
    + by left.
    + right. split; [done|]. left. eauto.
Qed.

(** For a group of the cache, the last call on its [low] was a touch: an
    [add], or a [get] made while the group was in the cache. *)
Lemma last_touch_present c0 ops k :
  LRU.map c0 = [] → k ∈ LRU.Map_keys (LRU.map (LRU.run c0 ops)) →
  ∃ ops1 op ops2,
    ops = ops1 ++ op :: ops2
    ∧ (op_hash op).1 = k
    ∧ Forall (λ o, (op_hash o).1 ≠ k) ops2
    ∧ last_touch ops k = S (length ops1)
    ∧ ((∃ hash val, op = OpAdd hash val)
       ∨ k ∈ LRU.Map_keys (LRU.map (LRU.run c0 ops1))).
Proof.
  intros Hc0. induction ops as [|op ops IH] using rev_ind.
  - cbn. rewrite Hc0. by intros ?%elem_of_nil.
  - rewrite run_snoc. intros [[Hne Hin]|[-> Hop]]%elem_of_Map_keys_step.
    + destruct (IH Hin) as (ops1 & op1 & ops2 & -> & Hk & Hrest & Hlast & Hop).
      exists ops1, op1, (ops2 ++ [op]). split; [by rewrite <- app_assoc|].
      split; [done|]. split; [|split; [|done]].
      * apply Forall_app. split; [done|]. constructor; [|constructor].
        intros E. by apply Hne.
      * rewrite last_touch_snoc, decide_False; [done|]. intros E. by apply Hne.
    + exists ops, op, []. split; [done|]. split; [done|]. split; [constructor|].
      split; [|done]. by rewrite last_touch_snoc, decide_True.
Qed.

(** *** What [get] finds *)

Lemma get_result c hash :
  (LRU.get c hash).1 = LRU.Map_get (LRU.map c) hash.1 ≫= (.!! hash.2).
Proof. unfold LRU.get. by destruct (LRU.Map_get (LRU.map c) hash.1). Qed.

Lemma Map_get_get c hash k :
  LRU.Map_get (LRU.map (LRU.get c hash).2) k = LRU.Map_get (LRU.map c) k.
Proof.
  unfold LRU.get.
  destruct (LRU.Map_get (LRU.map c) hash.1) as [arr|] eqn:Hget; cbn [snd LRU.map]; [|done].
  rewrite Map_get_set, Map_get_delete. case_decide; congruence.
Qed.

Lemma Map_get_add_store c hash val k :
  LRU.Map_get (LRU.map (LRU.add_store c hash val)) k
  = if decide (k = hash.1)
    then Some (<[hash.2 := val]> (default ∅ (LRU.Map_get (LRU.map c) hash.1)))
    else LRU.Map_get (LRU.map c) k.
Proof.
  unfold LRU.add_store.
  destruct (LRU.Map_get (LRU.map c) hash.1) as [arr|] eqn:Hget; cbn [LRU.map default].
  - rewrite Map_get_set, Map_get_delete. by case_decide.
  - rewrite Map_get_set. case_decide; [|done]. by rewrite insert_empty.
Qed.

Lemma Map_get_add_evict c k arr :
  LRU.Map_get (LRU.map (LRU.add_evict c)) k = Some arr →
  LRU.Map_get (LRU.map c) k = Some arr.
Proof.
  unfold LRU.add_evict. case_decide; [|done].
  destruct (LRU.Map_first_key (LRU.map c)) as [k0|]; cbn [LRU.map]; [|done].
  rewrite Map_get_delete. by case_decide.
Qed.

(** With room for one group at least, the group of the entry just added
    is not the one evicted. *)
Lemma get_add c hash val :
  1 ≤ LRU.maxSize c → (LRU.get (LRU.add c hash val) hash).1 = Some val.
Proof.
  intros Hmax. rewrite get_result. unfold LRU.add.
  assert (LRU.Map_get (LRU.map (LRU.add_store c hash val)) hash.1
          = Some (<[hash.2 := val]> (default ∅ (LRU.Map_get (LRU.map c) hash.1))))
    as Hmid by by rewrite Map_get_add_store, decide_True.
  pose proof (maxSize_add_store c hash val) as Hm.
  pose proof (Map_keys_add_store c hash val) as Hks.
  set (mid := LRU.add_store c hash val) in *.
  unfold LRU.add_evict. destruct (decide (LRU.maxSize mid < LRU.Map_size (LRU.map mid)))
    as [Hlt|Hge]; [|rewrite Hmid; cbn; apply lookup_insert_eq].
  rewrite Map_first_key_keys, Hks. rewrite Map_size_keys, Hks in Hlt.
  destruct (filter (λ j, j ≠ hash.1) (LRU.Map_keys (LRU.map c))) as [|k0 ks] eqn:Hf.
  { cbn in Hlt. lia. }
  cbn [app head LRU.map]. rewrite Map_get_delete.
  assert (k0 ∈ filter (λ j, j ≠ hash.1) (LRU.Map_keys (LRU.map c))) as Hin
    by (rewrite Hf; apply list_elem_of_here).
  apply list_elem_of_filter in Hin as [Hne _].
  rewrite decide_False by (intros E; by apply Hne).
  rewrite Hmid. cbn. apply lookup_insert_eq.
Qed.

Lemma stored_in_snoc ops op hash : stored_in ops hash → stored_in (ops ++ [op]) hash.
Proof. intros [val Hin]. exists val. apply elem_of_app. by left. Qed.

(** Every entry of the cache was stored by a call of [add] at its
    key-pair. *)
Lemma entries_stored c0 ops low arr high val :
  LRU.map c0 = [] →
  LRU.Map_get (LRU.map (LRU.run c0 ops)) low = Some arr → arr !! high = Some val →
  stored_in ops (low, high).
Proof.
  intros Hc0. revert low arr high val.
  induction ops as [|op ops IH] using rev_ind; intros low arr high val.
  - cbn. by rewrite Hc0.
  - rewrite run_snoc. destruct op as [hash|hash v]; cbn [LRU.step].
    + rewrite Map_get_get. intros. apply stored_in_snoc. eauto.
    + unfold LRU.add. intros Hget%Map_get_add_evict.
      rewrite Map_get_add_store in Hget. case_decide as Hk.
      * injection Hget as <-. subst low.
        destruct (decide (high = hash.2)) as [->|Hne].
        -- intros _. exists v. apply elem_of_app. right.
           apply list_elem_of_singleton. by destruct hash.
        -- rewrite lookup_insert_ne by done. intros Hhigh. apply stored_in_snoc.
           destruct (LRU.Map_get (LRU.map (LRU.run c0 ops)) hash.1) as [arr0|] eqn:H0;
             cbn in Hhigh; [eauto | by rewrite lookup_empty in Hhigh].
      * intros. apply stored_in_snoc. eauto.
Qed.

Lemma add_no_evict c hash val (ks : list Z) :
  LRU.Map_keys (LRU.map c) = ks →
  Z.of_nat (length (filter (λ j, j ≠ hash.1) ks ++ [hash.1])) ≤ LRU.maxSize c →
  LRU.add c hash val = LRU.add_store c hash val.
Proof.
  intros Hks Hle. unfold LRU.add. apply add_evict_id.
  rewrite maxSize_add_store. unfold LRU.size.
  rewrite Map_size_keys, Map_keys_add_store, Hks. lia.
Qed.

Lemma filter_ne_cons_ne (ks : list Z) (k j : Z) :
  k ≠ j → filter (λ i, i ≠ j) (k :: ks) = k :: filter (λ i, i ≠ j) ks.
Proof. intros Hne. by rewrite filter_cons, decide_True. Qed.

Lemma filter_ne_cons_eq (ks : list Z) (k : Z) :
  filter (λ i, i ≠ k) (k :: ks) = filter (λ i, i ≠ k) ks.
Proof. rewrite filter_cons, decide_False; [done|]. intros Hne. by apply Hne. Qed.

(** C1: with a positive [maxSize], the cache never holds more than
    [maxSize] groups, whatever the calls of [get] and [add]; an [add] that
    brings the number of groups above [maxSize] evicts exactly one group, the
    first key of the map, which is not the group just written and is the
    one least recently touched by [get] or [add] (for a group of the cache
    the last call on its [low] is an [add] or a [get] that found it, lemma
    [last_touch_present]).  In the scenario
    [add A; add B; get A; add C] with [maxSize = 2], [B] is evicted. *)
Theorem LRU_capacity_and_recency (maxSize : Z) c0 ops :
  0 < maxSize → LRU.new maxSize = Some c0 →
  LRU.size (LRU.run c0 ops) ≤ maxSize
  ∧ (∀ hash val,
       let c := LRU.run c0 ops in
       let mid := LRU.add_store c hash val in
       let ops' := ops ++ [OpAdd hash val] in
       maxSize < LRU.size mid →
       ∃ evicted,
         LRU.Map_first_key (LRU.map mid) = Some evicted
         ∧ evicted ≠ hash.1
         ∧ LRU.map (LRU.add c hash val) = LRU.Map_delete (LRU.map mid) evicted
         ∧ (∀ k, LRU.Map_get (LRU.map (LRU.add c hash val)) k
                 = if decide (k = evicted) then None else LRU.Map_get (LRU.map mid) k)
         ∧ LRU.size (LRU.add c hash val) = LRU.size mid - 1
         ∧ (∀ k, k ∈ LRU.Map_keys (LRU.map mid) → k ≠ evicted →
                 (last_touch ops' evicted < last_touch ops' k)%nat))
  ∧ (∀ c2 (A B C : KeyPair) vA vB vC,
       LRU.new 2 = Some c2 → A.1 ≠ B.1 → A.1 ≠ C.1 → B.1 ≠ C.1 →
       let c := LRU.run c2 [OpAdd A vA; OpAdd B vB; OpGet A; OpAdd C vC] in
       LRU.size c = 2
       ∧ (LRU.get c A).1 = Some vA
       ∧ (LRU.get c C).1 = Some vC
       ∧ (LRU.get c B).1 = None).
Proof.
  intros Hpos [= <-]. split; [|split].
  - pose proof (size_run_le (LRU.mkLRU [] maxSize) ops eq_refl) as Hle.
    cbn [LRU.maxSize] in Hle. lia.
  - intros hash val c mid ops' Hlt.
    assert (by_last_touch ops' (LRU.Map_keys (LRU.map mid))) as Hsorted.
    { unfold mid. rewrite Map_keys_add_store.
      apply (by_last_touch_refresh ops (OpAdd hash val)).
      by apply by_last_touch_run. }
    pose proof (by_last_touch_NoDup _ _ Hsorted) as Hnd.
    pose proof (Map_keys_add_store c hash val) as Hkeys. fold mid in Hkeys.
    destruct (LRU.Map_keys (LRU.map mid)) as [|k0 ks] eqn:Hks.
    { by destruct (filter _ _). }
    assert (LRU.maxSize mid = maxSize) as Hmax.
    { unfold mid, c. by rewrite maxSize_add_store, maxSize_run. }
    rewrite <- Hmax in Hlt.
    destruct (add_evict_spec mid k0 ks Hks Hnd Hlt) as (Hfirst & Hmap & _ & Hsize).
    exists k0. split; [done|]. split; [|split; [done|split; [|split; [done|]]]].
    + intros ->.
      destruct (filter (λ j, j ≠ hash.1) (LRU.Map_keys (LRU.map c))) as [|k1 ks1] eqn:Hf.
      * injection Hkeys as ->. unfold LRU.size in Hlt.
        rewrite Map_size_keys, Hks in Hlt. cbn in Hlt. lia.
      * injection Hkeys as <- _.
        assert (hash.1 ∈ filter (λ j, j ≠ hash.1) (LRU.Map_keys (LRU.map c))) as Hin
          by (rewrite Hf; apply list_elem_of_here).
        apply list_elem_of_filter in Hin as [Hne _]. done.
    + intros k. unfold LRU.add. fold c mid. rewrite Hmap. apply Map_get_delete.
    + intros k [->|Hin]%elem_of_cons Hne; [done|].
      apply StronglySorted_inv in Hsorted as [_ Hall].
      rewrite Forall_forall in Hall. by apply Hall.
  - intros c2 A B C vA vB vC [= <-] Hab Hac Hbc. unfold LRU.run. cbn [foldl LRU.step].
    set (c0 := LRU.mkLRU (Move := Move) [] 2).
    assert (LRU.add c0 A vA = LRU.add_store c0 A vA) as E1
      by (by apply (add_no_evict _ _ _ [])).
    assert (LRU.Map_keys (LRU.map (LRU.add c0 A vA)) = [A.1]) as K1
      by (by rewrite E1, Map_keys_add_store).
    set (c1 := LRU.add c0 A vA) in *.
    assert (LRU.maxSize c1 = 2) as M1 by (by rewrite E1, maxSize_add_store).
    assert (LRU.add c1 B vB = LRU.add_store c1 B vB) as E2.
    { apply (add_no_evict _ _ _ [A.1] K1).
      rewrite filter_ne_cons_ne, M1 by done. cbn. lia. }
    assert (LRU.Map_keys (LRU.map (LRU.add c1 B vB)) = [A.1; B.1]) as K2.
    { rewrite E2, Map_keys_add_store, K1. by rewrite filter_ne_cons_ne. }
    set (c2 := LRU.add c1 B vB) in *.
    assert (LRU.Map_get (LRU.map c1) A.1 = Some {[A.2 := vA]}) as G1.
    { rewrite E1, Map_get_add_store, decide_True by done. cbn.
      by rewrite insert_empty. }
    assert (LRU.Map_get (LRU.map c2) A.1 = Some {[A.2 := vA]}) as G2.
    { rewrite E2, Map_get_add_store, decide_False by done. done. }
    assert (LRU.Map_keys (LRU.map (LRU.get c2 A).2) = [B.1; A.1]) as K3.
    { rewrite Map_keys_get, G2, K2, filter_ne_cons_eq, filter_ne_cons_ne; done. }
    set (c3 := (LRU.get c2 A).2) in *.
    assert (LRU.maxSize c3 = 2) as M3.
    { unfold c3, LRU.get. rewrite G2. cbn. by rewrite E2, maxSize_add_store. }
    set (mid := LRU.add_store c3 C vC).
    assert (LRU.Map_keys (LRU.map mid) = [B.1; A.1; C.1]) as K4.
    { unfold mid. rewrite Map_keys_add_store, K3.
      by rewrite !filter_ne_cons_ne by done. }
    assert (NoDup [B.1; A.1; C.1]) as Hnd.
    { apply NoDup_cons_2; [|apply NoDup_cons_2; [|apply NoDup_singleton]].
      - intros [E|[E|E%elem_of_nil]%elem_of_cons]%elem_of_cons; congruence.
      - intros E%list_elem_of_singleton. congruence. }
    assert (LRU.maxSize mid < LRU.size mid) as Hlt.
    { unfold mid at 1. rewrite maxSize_add_store, M3.
      unfold LRU.size. rewrite Map_size_keys, K4. cbn. lia. }
    destruct (add_evict_spec mid _ _ K4 Hnd Hlt) as (_ & Hmap & _ & Hsize).
    unfold LRU.add. fold mid.
    assert (LRU.Map_get (LRU.map mid) A.1 = Some {[A.2 := vA]}) as G4.
    { unfold mid. rewrite Map_get_add_store, decide_False by done.
      unfold c3. by rewrite Map_get_get. }
    split; [|split; [|split]].
    + rewrite Hsize. unfold LRU.size. rewrite Map_size_keys, K4. cbn. lia.
    + rewrite get_result, Hmap, Map_get_delete, decide_False, G4 by done.
      cbn. apply lookup_singleton_eq.
    + rewrite get_result, Hmap, Map_get_delete, decide_False by done.
      unfold mid. rewrite Map_get_add_store, decide_True by done.
      cbn. apply lookup_insert_eq.
    + by rewrite get_result, Hmap, Map_get_delete, decide_True.
Qed.


End LRUFacts.

(** ** The flush cache *)

Section CacheFacts.

Context {Move : Type}.

Implicit Types (c : Cache.Cache (Move := Move)) (hash : KeyPair).
Implicit Types (rows : gmap Z (gmap Z (Entry Move))) (row : gmap Z (Entry Move)).
Implicit Types (ops : list (Op Move)) (op : Op Move) (val : Entry Move).

(** *** Counting the entries *)

#[local] Abbreviation count_rows := (Cache.count_rows (Move := Move)).

Lemma entry_count_rows c : Cache.entry_count c = count_rows (Cache.cache c).
Proof. done. Qed.

Lemma count_rows_empty : count_rows ∅ = 0.
Proof. apply map_fold_empty. Qed.

Lemma count_rows_insert_None rows low row :
  rows !! low = None →
  count_rows (<[low := row]> rows) = Z.of_nat (size row) + count_rows rows.
Proof.
  intros Hlow. unfold Cache.count_rows.
  rewrite map_fold_insert_L; [done | intros; lia | done].
Qed.

Lemma count_rows_delete rows low row :
  rows !! low = Some row →
  count_rows rows = Z.of_nat (size row) + count_rows (delete low rows).
Proof.
  intros Hlow. unfold Cache.count_rows.
  rewrite (map_fold_delete_L (λ _ row n, Z.of_nat (size row) + n) 0 low row rows);
    [done | intros; lia | done].
Qed.

Lemma count_rows_insert_Some rows low row row' :
  rows !! low = Some row →
  count_rows (<[low := row']> rows)
  = Z.of_nat (size row') + count_rows rows - Z.of_nat (size row).
Proof.
  intros Hlow. rewrite <- insert_delete_eq.
  rewrite count_rows_insert_None by apply lookup_delete_eq.
  rewrite (count_rows_delete rows low row Hlow). lia.
Qed.

Lemma count_rows_nonneg rows : 0 ≤ count_rows rows.
Proof.
  induction rows as [|low row rows Hlow IH] using map_ind.
  - by rewrite count_rows_empty.
  - rewrite count_rows_insert_None by done. lia.
Qed.

Lemma count_rows_occupied rows low row high val :
  rows !! low = Some row → row !! high = Some val → 1 ≤ count_rows rows.
Proof.
  intros Hlow Hhigh. rewrite (count_rows_delete rows low row Hlow).
  pose proof (count_rows_nonneg (delete low rows)).
  assert (size row ≠ 0%nat) by (apply map_size_ne_0_lookup; eauto). lia.
Qed.

(** *** [add] *)

(** The counter follows the number of entries through the store. *)
Lemma add_store_count c hash val :
  Cache.currentSize c = Cache.entry_count c →
  Cache.currentSize (Cache.add_store c hash val)
  = Cache.entry_count (Cache.add_store c hash val).
Proof.
  rewrite !entry_count_rows. intros Hc. unfold Cache.add_store.
  destruct (Cache.cache c !! hash.1) as [row|] eqn:Hrow; cbn [Cache.cache Cache.currentSize].
  - rewrite (count_rows_insert_Some _ _ row) by done.
    destruct (row !! hash.2) as [v|] eqn:Hv.
    + rewrite map_size_insert_Some by eauto. lia.
    + rewrite map_size_insert_None by done. lia.
  - rewrite count_rows_insert_None by done. rewrite map_size_singleton. lia.
Qed.

Lemma add_reset_count c :
  Cache.currentSize c = Cache.entry_count c →
  Cache.currentSize (Cache.add_reset c) = Cache.entry_count (Cache.add_reset c).
Proof.
  intros Hc. unfold Cache.add_reset. case_decide; [|done].
  rewrite entry_count_rows. cbn [Cache.cache Cache.currentSize].
  by rewrite count_rows_empty.
Qed.

Lemma add_store_size c hash val :
  Cache.size (Cache.add_store c hash val)
  = match Cache.get c hash with
    | Some _ => Cache.size c
    | None => Cache.size c + 1
    end.
Proof.
  unfold Cache.size, Cache.add_store, Cache.get.
  destruct (Cache.cache c !! hash.1) as [row|]; [|done]. cbn [Cache.currentSize].
  by destruct (row !! hash.2).
Qed.

Lemma get_add_store c hash val hash' :
  Cache.get (Cache.add_store c hash val) hash'
  = if decide (hash' = hash) then Some val else Cache.get c hash'.
Proof.
  destruct hash as [low high], hash' as [low' high'].
  unfold Cache.get, Cache.add_store. cbn [fst snd].
  destruct (Cache.cache c !! low) as [row|] eqn:Hrow; cbn [Cache.cache].
  - destruct (decide (low' = low)) as [->|Hl].
    + rewrite lookup_insert_eq. destruct (decide (high' = high)) as [->|Hh].
      * by rewrite lookup_insert_eq, decide_True.
      * rewrite lookup_insert_ne, decide_False, Hrow by congruence. done.
    + rewrite lookup_insert_ne, decide_False by congruence. done.
  - destruct (decide (low' = low)) as [->|Hl].
    + rewrite lookup_insert_eq. destruct (decide (high' = high)) as [->|Hh].
      * by rewrite lookup_singleton_eq, decide_True.
      * rewrite lookup_singleton_ne, decide_False, Hrow by congruence. done.
    + rewrite lookup_insert_ne, decide_False by congruence. done.
Qed.

Lemma maxSize_add c hash val : Cache.maxSize (Cache.add c hash val) = Cache.maxSize c.
Proof.
  unfold Cache.add, Cache.add_store, Cache.add_reset.
  case_decide; cbn; by destruct (_ !! hash.1).
Qed.

Lemma get_add_reset_full c hash :
  Cache.size c = Cache.maxSize c → Cache.get (Cache.add_reset c) hash = None.
Proof.
  unfold Cache.size, Cache.add_reset, Cache.get. intros Hfull.
  rewrite decide_True by done. cbn. by rewrite lookup_empty.
Qed.

Lemma add_reset_not_full c : Cache.size c ≠ Cache.maxSize c → Cache.add_reset c = c.
Proof. unfold Cache.size, Cache.add_reset. intros Hne. by rewrite decide_False. Qed.

Lemma size_add_reset_full c :
  Cache.size c = Cache.maxSize c → Cache.size (Cache.add_reset c) = 0.
Proof. unfold Cache.size, Cache.add_reset. intros Hfull. by rewrite decide_True. Qed.

(** An [add] on a full cache leaves the new entry alone in the cache. *)
Lemma add_full c hash val :
  Cache.size c = Cache.maxSize c →
  Cache.size (Cache.add c hash val) = 1
  ∧ Cache.cache (Cache.add c hash val) = {[hash.1 := {[hash.2 := val]}]}
  ∧ Cache.get (Cache.add c hash val) hash = Some val
  ∧ (∀ hash', hash' ≠ hash → Cache.get (Cache.add c hash val) hash' = None).
Proof.
  intros Hfull. unfold Cache.add. split; [|split; [|split]].
  - by rewrite add_store_size, get_add_reset_full, size_add_reset_full.
  - unfold Cache.add_reset, Cache.add_store. unfold Cache.size in Hfull.
    rewrite decide_True by done. cbn. rewrite lookup_empty. cbn.
    by rewrite insert_empty.
  - by rewrite get_add_store, decide_True.
  - intros hash' Hne. rewrite get_add_store, decide_False by done.
    by apply get_add_reset_full.
Qed.

(** An [add] on a cache that is not full. *)
Lemma add_not_full c hash val :
  Cache.size c ≠ Cache.maxSize c →
  Cache.size (Cache.add c hash val)
  = match Cache.get c hash with
    | Some _ => Cache.size c
    | None => Cache.size c + 1
    end
  ∧ (∀ hash', Cache.get (Cache.add c hash val) hash'
              = if decide (hash' = hash) then Some val else Cache.get c hash').
Proof.
  intros Hne. unfold Cache.add. rewrite add_reset_not_full by done.
  split; [apply add_store_size | intros; apply get_add_store].
Qed.

Lemma run_snoc_cache c ops op : Cache.run c (ops ++ [op]) = Cache.step (Cache.run c ops) op.
Proof. unfold Cache.run. by rewrite foldl_snoc. Qed.

Lemma maxSize_run_cache c ops : Cache.maxSize (Cache.run c ops) = Cache.maxSize c.
Proof.
  induction ops as [|op ops IH] using rev_ind; [done|].
  rewrite run_snoc_cache. destruct op as [hash|hash val]; cbn [Cache.step]; [done|].
  by rewrite maxSize_add.
Qed.

(** The invariants of a run from the empty cache. *)
Lemma run_count c0 ops :
  Cache.cache c0 = ∅ → Cache.currentSize c0 = 0 →
  Cache.currentSize (Cache.run c0 ops) = Cache.entry_count (Cache.run c0 ops).
Proof.
  intros Hc0 Hs0. induction ops as [|op ops IH] using rev_ind.
  - cbn. by rewrite entry_count_rows, Hc0, count_rows_empty.
  - rewrite run_snoc_cache. destruct op as [hash|hash val]; cbn [Cache.step]; [done|].
    unfold Cache.add. by apply add_store_count, add_reset_count.
Qed.

Lemma run_size_le c0 ops :
  Cache.currentSize c0 = 0 → 1 ≤ Cache.maxSize c0 →
  0 ≤ Cache.size (Cache.run c0 ops) ≤ Cache.maxSize c0.
Proof.
  intros Hs0 Hmax. induction ops as [|op ops IH] using rev_ind.
  - cbn. unfold Cache.size. lia.
  - rewrite run_snoc_cache. destruct op as [hash|hash val]; cbn [Cache.step]; [done|].
    pose proof (maxSize_run_cache c0 ops) as Hm.
    destruct (decide (Cache.size (Cache.run c0 ops) = Cache.maxSize (Cache.run c0 ops)))
      as [Hfull|Hnf].
    + destruct (add_full _ hash val Hfull) as (-> & _). lia.
    + destruct (add_not_full _ hash val Hnf) as (-> & _).
      destruct (Cache.get _ hash); lia.
Qed.

Lemma entries_stored_cache c0 ops hash val :
  Cache.cache c0 = ∅ →
  Cache.get (Cache.run c0 ops) hash = Some val → stored_in ops hash.
Proof.
  intros Hc0. revert val.
  induction ops as [|op ops IH] using rev_ind; intros val.
  - cbn. unfold Cache.get. by rewrite Hc0, lookup_empty.
  - rewrite run_snoc_cache. destruct op as [hash'|hash' v]; cbn [Cache.step].
    + intros Hget. apply stored_in_snoc. eauto.
    + unfold Cache.add. rewrite get_add_store. case_decide as Heq.
      * intros _. subst hash'. exists v. apply elem_of_app. right.
        by apply list_elem_of_singleton.
      * intros Hget. apply stored_in_snoc.
        unfold Cache.add_reset in Hget. case_decide; [|eauto].
        unfold Cache.get in Hget. cbn in Hget. by rewrite lookup_empty in Hget.
Qed.

(** C2: on a cache constructed with a positive [maxSize], an [add] called
    when [size() == maxSize] drops every entry stored before and leaves the
    new entry alone in the cache; with [maxSize = 3], three distinct
    entries fill the cache and a fourth one flushes them. *)
Theorem Cache_add_flushes_when_full (maxSize : Z) c0 ops hash val :
  0 < maxSize → Cache.new maxSize = Some c0 →
  Cache.size (Cache.run c0 ops) = maxSize →
  (let c' := Cache.add (Cache.run c0 ops) hash val in
   Cache.size c' = 1
   ∧ Cache.cache c' = {[hash.1 := {[hash.2 := val]}]}
   ∧ Cache.get c' hash = Some val
   ∧ (∀ hash', hash' ≠ hash → Cache.get c' hash' = None))
  ∧ (∀ c3 (h1 h2 h3 h4 : KeyPair) v1 v2 v3 v4,
       Cache.new 3 = Some c3 →
       h1 ≠ h2 → h1 ≠ h3 → h2 ≠ h3 → h4 ≠ h1 → h4 ≠ h2 → h4 ≠ h3 →
       let c := Cache.run c3 [OpAdd h1 v1; OpAdd h2 v2; OpAdd h3 v3] in
       Cache.size c = 3
       ∧ Cache.size (Cache.add c h4 v4) = 1
       ∧ Cache.get (Cache.add c h4 v4) h4 = Some v4
       ∧ Cache.get (Cache.add c h4 v4) h1 = None
       ∧ Cache.get (Cache.add c h4 v4) h2 = None
       ∧ Cache.get (Cache.add c h4 v4) h3 = None).
Proof.
  intros Hpos [= <-] Hfull. split.
  - apply add_full. by rewrite maxSize_run_cache.
  - intros c3 h1 h2 h3 h4 v1 v2 v3 v4 [= <-] H12 H13 H23 H41 H42 H43.
    unfold Cache.run. cbn [foldl Cache.step].
    set (k0 := Cache.mkCache (Move := Move) ∅ 3 0).
    assert (∀ h, Cache.get k0 h = None) as G0.
    { intros h. unfold Cache.get. cbn. by rewrite lookup_empty. }
    destruct (add_not_full k0 h1 v1) as (S1 & G1); [done|].
    rewrite G0 in S1. pose proof (maxSize_add k0 h1 v1) as M1.
    set (k1 := Cache.add k0 h1 v1) in *.
    destruct (add_not_full k1 h2 v2) as (S2 & G2); [rewrite S1, M1; done|].
    rewrite G1, decide_False, G0, S1 in S2 by done.
    pose proof (maxSize_add k1 h2 v2) as M2.
    set (k2 := Cache.add k1 h2 v2) in *.
    destruct (add_not_full k2 h3 v3) as (S3 & G3); [rewrite S2, M2, M1; done|].
    rewrite G2, decide_False, G1, decide_False, G0, S2 in S3 by done.
    pose proof (maxSize_add k2 h3 v3) as M3.
    set (k3 := Cache.add k2 h3 v3) in *.
    assert (Cache.size k3 = Cache.maxSize k3) as Hfull3 by (by rewrite S3, M3, M2, M1).
    destruct (add_full k3 h4 v4 Hfull3) as (S4 & _ & G4 & N4).
    split; [done|]. split; [done|]. split; [done|].
    split; [|split]; apply N4; congruence.
Qed.

(** C10: on a cache constructed with [maxSize ≥ 1], after any calls,
    [size()] is at most [maxSize] and is the number of [(low, high)] slots
    that hold an entry. *)
Theorem Cache_size_counts_entries (maxSize : Z) c0 ops :
  1 ≤ maxSize → Cache.new maxSize = Some c0 →
  0 ≤ Cache.size (Cache.run c0 ops) ≤ maxSize
  ∧ Cache.size (Cache.run c0 ops) = Cache.entry_count (Cache.run c0 ops).
Proof.
  intros Hmax [= <-]. split.
  - by apply (run_size_le (Cache.mkCache ∅ maxSize 0)).
  - by apply run_count.
Qed.

End CacheFacts.

(** ** Both caches *)

Section BothCaches.

Context {Move : Type}.

Implicit Types (hash : KeyPair) (ops : list (Op Move)) (val : Entry Move).

(** C3, as amended: an [add] at an occupied [(low, high)] leaves [size()]
    unchanged in the LRU cache, and in the flush cache unless the cache is
    full; a full flush cache is flushed first, and its size becomes [1].
    The size never grows. *)
Theorem add_occupied_size :
  (∀ maxSize c0 ops hash val,
     LRU.new maxSize = Some c0 →
     is_Some (LRU.get (LRU.run c0 ops) hash).1 →
     LRU.size (LRU.add (LRU.run c0 ops) hash val) = LRU.size (LRU.run c0 ops))
  ∧ (∀ maxSize c0 ops hash val,
       Cache.new maxSize = Some c0 →
       is_Some (Cache.get (Cache.run c0 ops) hash) →
       (Cache.size (Cache.run c0 ops) ≠ maxSize →
          Cache.size (Cache.add (Cache.run c0 ops) hash val)
          = Cache.size (Cache.run c0 ops))
       ∧ (Cache.size (Cache.run c0 ops) = maxSize →
            Cache.size (Cache.add (Cache.run c0 ops) hash val) = 1)
       ∧ Cache.size (Cache.add (Cache.run c0 ops) hash val)
         ≤ Cache.size (Cache.run c0 ops)).
Proof.
  split.
  - intros maxSize c0 ops hash val [= <-] [v Hget].
    set (c := LRU.run (LRU.mkLRU [] maxSize) ops) in *.
    rewrite get_result in Hget.
    destruct (LRU.Map_get (LRU.map c) hash.1) as [arr|] eqn:Harr; [|done].
    pose proof (NoDup_keys_run (LRU.mkLRU [] maxSize) ops eq_refl) as Hnd. fold c in Hnd.
    pose proof (size_run_le (LRU.mkLRU [] maxSize) ops eq_refl) as Hle.
    fold c in Hle. cbn [LRU.maxSize] in Hle.
    pose proof (size_add_store c hash val Hnd) as Hmid. rewrite Harr in Hmid.
    assert (1 ≤ LRU.size c) as Hone.
    { apply Map_get_Some in Harr. unfold LRU.size. rewrite Map_size_keys.
      destruct (LRU.Map_keys (LRU.map c)); [by apply elem_of_nil in Harr | cbn; lia]. }
    unfold LRU.add. rewrite add_evict_id; [done|].
    rewrite maxSize_add_store, Hmid. unfold c at 1. rewrite maxSize_run. cbn. lia.
  - intros maxSize c0 ops hash val [= <-] [v Hget].
    set (c := Cache.run (Cache.mkCache ∅ maxSize 0) ops) in *.
    assert (Cache.maxSize c = maxSize) as Hm by apply maxSize_run_cache.
    assert (1 ≤ Cache.size c) as Hone.
    { unfold Cache.size, c. rewrite run_count by done. fold c.
      unfold Cache.get in Hget.
      destruct (Cache.cache c !! hash.1) as [row|] eqn:Hrow; [|done].
      by eapply count_rows_occupied. }
    assert (Cache.size c = maxSize → Cache.size (Cache.add c hash val) = 1) as Hfull.
    { intros Hfull. apply add_full. by rewrite Hm. }
    assert (Cache.size c ≠ maxSize → Cache.size (Cache.add c hash val) = Cache.size c)
      as Hnf.
    { intros Hnf. destruct (add_not_full c hash val) as (-> & _); [by rewrite Hm|].
      by rewrite Hget. }
    split; [done|]. split; [done|].
    destruct (decide (Cache.size c = maxSize)) as [E|N]; [rewrite Hfull by done | rewrite Hnf by done]; lia.
Qed.

(** C4, as amended: the constructors check nothing.  For every [maxSize],
    positive or not, they return an empty cache that holds the [maxSize]
    given; an LRU cache made with [maxSize ≤ 0] stays empty whatever is
    added. *)
Theorem constructors_accept_any_maxSize :
  (∀ maxSize, LRU.new (Move := Move) maxSize = Some (LRU.mkLRU [] maxSize))
  ∧ (∀ maxSize, Cache.new (Move := Move) maxSize = Some (Cache.mkCache ∅ maxSize 0))
  ∧ (∀ maxSize c0 ops,
       maxSize ≤ 0 → LRU.new (Move := Move) maxSize = Some c0 →
       LRU.size (LRU.run c0 ops) = 0).
Proof.
  split; [done|]. split; [done|].
  intros maxSize c0 ops Hle [= <-].
  pose proof (size_run_le (LRU.mkLRU [] maxSize) ops eq_refl) as Hsz.
  cbn [LRU.maxSize] in Hsz. unfold LRU.size, LRU.Map_size in *. lia.
Qed.

(** C9: in both caches [get] on a key-pair that no [add] stored returns
    [None], the absent result, and a [get] that follows the [add] of an
    entry returns [Some] of it, which differs from the absent result also
    for the score [0]. *)
Theorem get_absent_or_entry :
  (∀ maxSize c0 ops hash,
     LRU.new maxSize = Some c0 → ¬ stored_in ops hash →
     (LRU.get (LRU.run c0 ops) hash).1 = None)
  ∧ (∀ maxSize c0 ops hash,
       Cache.new maxSize = Some c0 → ¬ stored_in ops hash →
       Cache.get (Cache.run c0 ops) hash = None)
  ∧ (∀ (c : LRU.LRU (Move := Move)) hash val,
       1 ≤ LRU.maxSize c →
       (LRU.get (LRU.add c hash val) hash).1 = Some val
       ∧ (LRU.get (LRU.add c hash val) hash).1 ≠ None)
  ∧ (∀ (c : Cache.Cache (Move := Move)) hash val,
       Cache.get (Cache.add c hash val) hash = Some val
       ∧ Cache.get (Cache.add c hash val) hash ≠ None)
  ∧ Some (EScore (Move := Move) 0) ≠ None.
Proof.
  split; [|split; [|split; [|split]]].
  - intros maxSize c0 ops hash [= <-] Hns. rewrite get_result.
    destruct (LRU.Map_get _ hash.1) as [arr|] eqn:Harr; [|done]. cbn.
    destruct (arr !! hash.2) as [v|] eqn:Hv; [|done].
    destruct Hns. destruct hash as [low high].
    by eapply (entries_stored (LRU.mkLRU [] maxSize)).
  - intros maxSize c0 ops hash [= <-] Hns.
    destruct (Cache.get _ hash) as [v|] eqn:Hv; [|done].
    destruct Hns. by eapply (entries_stored_cache (Cache.mkCache ∅ maxSize 0)).
  - intros c hash val Hmax. rewrite get_add by done. done.
  - intros c hash val. unfold Cache.add. rewrite get_add_store, decide_True by done. done.
  - done.
Qed.

End BothCaches.

(** * Instances

    The theorems above at the concrete inputs. *)

Lemma example_mt_int32 i : int32 (example_mt i).
Proof.
  unfold int32, example_mt.
  pose proof (Z.mod_pos_bound (Z.of_nat i * 7919 + 13) 100003). lia.
Qed.

Lemma example_globals_table :
  init example_mt example_pieces globals0 = Some ((), example_globals)
  ∧ int32_table (hashes example_globals)
  ∧ complete_table example_pieces (hashes example_globals).
Proof.
  destruct (init_table example_mt example_pieces example_mt_int32)
    as (g & Hinit & Hint & Hcomplete); [discriminate|].
  unfold example_globals. rewrite Hinit.
  split; [reflexivity | split; assumption].
Qed.

Lemma example_pos_wf : wf_position example_pieces example_pos.
Proof.
  split; [|cbn; lia]. intros i p Hp.
  destruct i as [|[|[|i]]]; cbn in Hp; simplify_eq;
    unfold example_pieces; rewrite !elem_of_cons; auto.
Qed.

(** The module of 12 pieces draws 1872 numbers where twice the number of
    features is 1564, and the key-pair of "white to move" is the one drawn
    in the twelfth run of the loop. *)
Example init_12_pieces :
  (λ r, (random r.2, hashes_turn (hashes r.2) WHITE))
    <$> init (λ n, Z.of_nat n) (seq 0 12) globals0
  = Some (1872%nat, Some (1844, 1845))
  ∧ (2 * feature_count 12)%nat = 1564%nat.
Proof. split; vm_compute; reflexivity. Qed.

Lemma hash_computes_fingerprint_witness :
  int32_table (hashes example_globals) ∧ -1 ≤ pos_ep example_pos
  ∧ hash example_pos example_globals
    = (computeFingerprint (hashes example_globals) example_pos
       ≫= λ fp, Some (fp, example_globals))
  ∧ hash example_pos example_globals = Some ((343, -63691), example_globals)
  ∧ ∃ fp, computeFingerprint (hashes example_globals) example_pos = Some fp
      ∧ hash example_pos example_globals = Some (fp, example_globals).
Proof.
  destruct example_globals_table as (_ & Hint & Hcomplete).
  assert (-1 ≤ pos_ep example_pos) as Hep by (cbn; lia).
  destruct (hash_computes_fingerprint example_pos example_globals Hint Hep)
    as [Hhash Hsome].
  split; [exact Hint|]. split; [exact Hep|]. split; [exact Hhash|].
  split; [vm_compute; reflexivity|].
  exact (Hsome example_pieces Hcomplete example_pos_wf).
Defined.

Lemma applyHashes_involution_witness :
  bind (applyHashes (Some (123, -456)) (5, -7)) (applyHashes (Some (123, -456)))
    example_globals
  = Some ((5, -7), example_globals)
  ∧ ∃ fp',
      hash (toggle_wc_queenside example_pos) example_globals
      = Some (fp', example_globals)
      ∧ applyHashes (Some (30619, 38538)) (343, -63691) example_globals
        = Some (fp', example_globals)
      ∧ applyHashes (Some (30619, 38538)) fp' example_globals
        = Some ((343, -63691), example_globals)
      ∧ hash (toggle_wc_queenside (toggle_wc_queenside example_pos)) example_globals
        = Some ((343, -63691), example_globals).
Proof.
  destruct example_globals_table as (_ & Hint & _).
  destruct (applyHashes_involution (Piece := nat)) as [Htwice Htoggle].
  split.
  - apply Htwice. split; cbn; unfold int32; lia.
  - apply Htoggle.
    + exact Hint.
    + cbn. lia.
    + vm_compute. reflexivity.
    + vm_compute. reflexivity.
Defined.

Lemma hashes_mkGlobals (r : nat) (hs : Hashes (Piece := nat)) :
  hs = hashes (mkGlobals r hs).
Proof. reflexivity. Qed.

Lemma hash_deterministic_pure_witness :
  same_features example_pos example_pos'
  ∧ ∃ o : option KeyPair,
      hash example_pos example_globals = (o ≫= λ fp, Some (fp, example_globals))
      ∧ hash example_pos' (mkGlobals 1000 (hashes example_globals))
        = (o ≫= λ fp, Some (fp, mkGlobals 1000 (hashes example_globals))).
Proof.
  assert (same_features example_pos example_pos') as Hsame.
  { split; [|done]. intros i _. by destruct i as [|[|[|[|[|i]]]]]. }
  split; [exact Hsame|].
  exact (hash_deterministic_pure example_pos example_pos' example_globals
           (mkGlobals 1000 (hashes example_globals)) Hsame
           (hashes_mkGlobals 1000 (hashes example_globals))).
Defined.

Lemma LRU_capacity_and_recency_witness :
  LRU.size (LRU.run (LRU.mkLRU [] 2) example_ops) ≤ 2
  ∧ ∃ evicted,
      LRU.Map_first_key
        (LRU.map (LRU.add_store (LRU.run (LRU.mkLRU [] 2) example_ops) (3, 30) (EMove ())))
      = Some evicted
      ∧ evicted = 2
      ∧ LRU.size (LRU.add (LRU.run (LRU.mkLRU [] 2) example_ops) (3, 30) (EMove ())) = 2
      ∧ (last_touch (example_ops ++ [example_add]) evicted
         < last_touch (example_ops ++ [example_add]) 1%Z)%nat.
Proof.
  destruct (LRU_capacity_and_recency 2 (LRU.mkLRU [] 2) example_ops) as (Hle & Hevict & _).
  { lia. }
  { reflexivity. }
  split; [exact Hle|].
  destruct (Hevict (3, 30) (EMove ())) as (evicted & Hfirst & _ & _ & _ & Hsize & Hlru).
  { vm_compute. reflexivity. }
  exists evicted.
  assert (evicted = 2) as E.
  { vm_compute in Hfirst. congruence. }
  split; [exact Hfirst|]. split; [exact E|]. split.
  - rewrite Hsize. vm_compute. reflexivity.
  - apply Hlru; [vm_compute | lia].
    apply elem_of_cons; right. apply elem_of_cons; left. reflexivity.
Defined.

Lemma Cache_add_flushes_when_full_witness :
  Cache.size (Cache.run example_cache1 [OpAdd (1, 1) (EScore 5)]) = 1
  ∧ Cache.size
      (Cache.add (Cache.run example_cache1 [OpAdd (1, 1) (EScore 5)]) (2, 2) (EScore 0))
    = 1
  ∧ Cache.get
      (Cache.add (Cache.run example_cache1 [OpAdd (1, 1) (EScore 5)]) (2, 2) (EScore 0))
      (1, 1)
    = None.
Proof.
  assert (Cache.size (Cache.run example_cache1 [OpAdd (1, 1) (EScore 5)]) = 1) as Hfull
    by (vm_compute; reflexivity).
  destruct (Cache_add_flushes_when_full 1 example_cache1
              [OpAdd (1, 1) (EScore 5)] (2, 2) (EScore 0)) as [(Hsize & _ & _ & Hnone) _].
  { lia. }
  { reflexivity. }
  { exact Hfull. }
  split; [exact Hfull|]. split; [exact Hsize|]. apply Hnone. discriminate.
Defined.

Lemma Cache_size_counts_entries_witness :
  0 ≤ Cache.size (Cache.run (Cache.mkCache ∅ 2 0) example_ops) ≤ 2
  ∧ Cache.size (Cache.run (Cache.mkCache ∅ 2 0) example_ops)
    = Cache.entry_count (Cache.run (Cache.mkCache ∅ 2 0) example_ops).
Proof.
  apply (Cache_size_counts_entries 2 (Cache.mkCache ∅ 2 0) example_ops).
  - lia.
  - reflexivity.
Defined.

(** C3 as stated fails on the flush cache: with [maxSize = 2] and two
    entries stored, an [add] at the first entry's key-pair flushes the cache,
    and [size()] goes from [2] to [1]. *)
Lemma Cache_add_occupied_changes_size :
  ¬ (∀ (maxSize : Z) (c0 : Cache.Cache (Move := unit)) ops hash val,
       Cache.new maxSize = Some c0 →
       is_Some (Cache.get (Cache.run c0 ops) hash) →
       Cache.size (Cache.add (Cache.run c0 ops) hash val)
       = Cache.size (Cache.run c0 ops)).
Proof.
  intros Hclaim.
  specialize (Hclaim 2 (Cache.mkCache ∅ 2 0)
                [OpAdd (1, 1) (EScore 5); OpAdd (2, 2) (EScore 6)]
                (1, 1) (EScore 7) eq_refl).
  assert (is_Some (Cache.get
            (Cache.run (Cache.mkCache (Move := unit) ∅ 2 0)
               [OpAdd (1, 1) (EScore 5); OpAdd (2, 2) (EScore 6)]) (1, 1))) as Hocc
    by (vm_compute; eauto).
  specialize (Hclaim Hocc). vm_compute in Hclaim. discriminate Hclaim.
Qed.

Lemma add_occupied_size_witness :
  LRU.size (LRU.add (LRU.run (LRU.mkLRU [] 2) example_ops) (2, 20) (EScore 1))
  = LRU.size (LRU.run (LRU.mkLRU [] 2) example_ops)
  ∧ Cache.size (Cache.add (Cache.run (Cache.mkCache ∅ 3 0) example_ops) (2, 20) (EScore 1))
    = Cache.size (Cache.run (Cache.mkCache ∅ 3 0) example_ops)
  ∧ Cache.size (Cache.add (Cache.run (Cache.mkCache ∅ 2 0) example_ops) (2, 20) (EScore 1))
    = 1.
Proof.
  destruct (add_occupied_size (Move := unit)) as [Hlru Hcache].
  split; [|split].
  - apply (Hlru 2); [reflexivity | vm_compute; eauto].
  - apply (Hcache 3); [reflexivity | vm_compute; eauto | vm_compute; discriminate].
  - apply (Hcache 2); [reflexivity | vm_compute; eauto | vm_compute; reflexivity].
Defined.

(** C4 as stated fails: the constructors return a cache for [maxSize = 0]. *)
Lemma constructors_do_not_reject :
  ¬ (∀ maxSize : Z, maxSize ≤ 0 →
       LRU.new (Move := unit) maxSize = None ∧ Cache.new (Move := unit) maxSize = None).
Proof.
  intros Hclaim. destruct (Hclaim 0) as [Hlru _]; [lia|]. discriminate Hlru.
Qed.

Lemma constructors_accept_any_maxSize_witness :
  LRU.new (Move := unit) (-1) = Some (LRU.mkLRU [] (-1))
  ∧ Cache.new (Move := unit) 0 = Some (Cache.mkCache ∅ 0 0)
  ∧ LRU.size (LRU.run (LRU.mkLRU [] (-1)) example_ops) = 0.
Proof.
  destruct (constructors_accept_any_maxSize (Move := unit)) as (Hlru & Hcache & Hempty).
  split; [apply Hlru|]. split; [apply Hcache|].
  apply (Hempty (-1)); [lia | reflexivity].
Defined.

Lemma get_absent_or_entry_witness :
  (LRU.get (LRU.run (LRU.mkLRU [] 2) example_ops) (1, 20)).1 = None
  ∧ Cache.get (Cache.run (Cache.mkCache ∅ 2 0) example_ops) (1, 20) = None
  ∧ (LRU.get (LRU.add (LRU.mkLRU [] 2) (1, 20) (EScore (Move := unit) 0)) (1, 20)).1
    = Some (EScore 0)
  ∧ Cache.get (Cache.add (Cache.mkCache ∅ 2 0) (1, 20) (EScore (Move := unit) 0)) (1, 20)
    = Some (EScore 0).
Proof.
  destruct (get_absent_or_entry (Move := unit)) as (Hlru & Hcache & Hlru' & Hcache' & _).
  assert (¬ stored_in example_ops (1, 20)) as Hns.
  { intros [val Hin]. unfold example_ops in Hin.
    repeat (apply elem_of_cons in Hin as [Hin|Hin]; [discriminate Hin|]).
    by apply elem_of_nil in Hin. }
  split; [by apply (Hlru 2)|]. split; [by apply (Hcache 2)|].
  split; [apply Hlru'; cbn; lia | apply Hcache'].
Defined.

(** * Further properties of the code *)

(** ** What [hash] reads and when it throws *)

Section HashReadsFacts.

Context {Piece : Type} `{Countable Piece}.

Implicit Types (hs : Hashes (Piece := Piece)) (pos : Position (Piece := Piece)).
Implicit Types (g : Globals (Piece := Piece)) (acc k : KeyPair).

Lemma xor32_all_app acc ks1 ks2 :
  xor32_all acc (ks1 ++ ks2) = xor32_all acc ks1 ≫= λ acc', xor32_all acc' ks2.
Proof.
  revert acc. induction ks1 as [|[k|] ks1 IH]; intros acc; cbn; auto.
Qed.

Lemma reads_ret : reads (Piece := Piece) ret [].
Proof. by intros acc g. Qed.

Lemma reads_applyHashes (key : option KeyPair) :
  reads (Piece := Piece) (applyHashes key) [key].
Proof. intros acc g. by destruct key. Qed.

Lemma reads_bind (c1 c2 : KeyPair → M KeyPair) ks1 ks2 :
  reads (Piece := Piece) c1 ks1 → reads c2 ks2 →
  reads (λ acc, bind (c1 acc) c2) (ks1 ++ ks2).
Proof.
  intros H1 H2 acc g. rewrite xor32_all_app. unfold bind. rewrite H1.
  destruct (xor32_all acc ks1) as [acc1|]; cbn; [apply H2 | done].
Qed.

Lemma reads_for_loop (body : nat → KeyPair → M KeyPair)
    (keys : nat → list (option KeyPair)) start n :
  (∀ i, reads (Piece := Piece) (body i) (keys i)) →
  reads (for_loop start n body) (concat (keys <$> seq start n)).
Proof.
  intros Hbody. revert start.
  induction n as [|n IH]; intros start; cbn [for_loop seq fmap list_fmap concat].
  - apply reads_ret.
  - apply (reads_bind (body start) (for_loop (S start) n body)); auto.
Qed.

Lemma reads_hash_square hs pos i :
  reads (hash_square hs pos i) (square_feature hs pos i).
Proof.
  unfold hash_square, square_feature.
  destruct (pos_board pos !! i) as [[p|]|]; try apply reads_ret.
  apply reads_applyHashes.
Qed.

Lemma reads_applyHashes_if (cond : bool) (key : option KeyPair) :
  reads (Piece := Piece) (applyHashes_if cond key) (castling_feature cond key).
Proof.
  unfold applyHashes_if, castling_feature.
  destruct cond; [apply reads_applyHashes | apply reads_ret].
Qed.

Lemma reads_ep hs pos :
  reads (Piece := Piece)
    (applyHashes_if (bool_decide (pos_ep pos ≠ -1))
       (js_index (hashes_epFile hs) (Z.rem (pos_ep pos) 8)))
    (ep_read hs pos).
Proof.
  unfold ep_read, applyHashes_if.
  destruct (bool_decide (pos_ep pos ≠ -1)); [apply reads_applyHashes | apply reads_ret].
Qed.

(** [hash], on any table: the keys it reads, applied with [^]. *)
Lemma hash_reads_spec pos g :
  hash pos g = (xor32_all (0, 0) (hash_reads (hashes g) pos) ≫= λ fp, Some (fp, g)).
Proof.
  unfold hash, hash_reads. unfold bind at 1. unfold get_hashes.
  set (hs := hashes g).
  refine (reads_bind (applyHashes _) _ [_] _ _ _ (0, 0) g).
  { apply reads_applyHashes. }
  refine (reads_bind (for_loop 0 64 (hash_square hs pos)) _ _ _ _ _).
  { apply reads_for_loop. intros i. apply reads_hash_square. }
  do 4 (refine (reads_bind (applyHashes_if _ _) _ _ _ _ _);
        [apply reads_applyHashes_if|]).
  intros acc g'.
  rewrite <- (app_nil_r (ep_read hs pos)).
  apply (reads_bind _ ret _ [] (reads_ep hs pos) reads_ret).
Qed.

Lemma xor32_keys_int32 acc k : int32_pair (xor32_keys acc k).
Proof. split; apply xor32_int32. Qed.

Lemma xor32_all_int32 acc keys fp :
  int32_pair acc → xor32_all acc keys = Some fp → int32_pair fp.
Proof.
  revert acc. induction keys as [|[k|] keys IH]; intros acc Hacc; cbn.
  - by intros [= <-].
  - apply IH, xor32_keys_int32.
  - done.
Qed.

Lemma xor32_all_None acc keys : xor32_all acc keys = None ↔ None ∈ keys.
Proof.
  revert acc. induction keys as [|[k|] keys IH]; intros acc; cbn.
  - split; [done | by intros ?%elem_of_nil].
  - rewrite IH, elem_of_cons. split; [by right | by intros [?|?]].
  - split; [intros _; apply list_elem_of_here | done].
Qed.

Lemma xor32_keys_swap acc j k :
  int32_pair acc → xor32_keys (xor32_keys acc j) k = xor32_keys (xor32_keys acc k) j.
Proof. intros [??]. unfold xor32_keys. cbn. f_equal; by apply xor32_swap. Qed.

Lemma xor32_keys_twice acc k : int32_pair acc → xor32_keys (xor32_keys acc k) k = acc.
Proof.
  intros [??]. unfold xor32_keys. cbn. rewrite !xor32_twice by done. by destruct acc.
Qed.

Lemma xor32_all_xor_acc acc k keys :
  int32_pair acc →
  xor32_all (xor32_keys acc k) keys = (λ a, xor32_keys a k) <$> xor32_all acc keys.
Proof.
  revert acc. induction keys as [|[j|] keys IH]; intros acc Hacc; cbn; [done| |done].
  rewrite <- IH by apply xor32_keys_int32. f_equal. by apply xor32_keys_swap.
Qed.

(** A key-pair read in the middle can as well be applied at the end. *)
Lemma xor32_all_insert acc k keys1 keys2 :
  int32_pair acc →
  xor32_all acc (keys1 ++ Some k :: keys2)
  = (λ a, xor32_keys a k) <$> xor32_all acc (keys1 ++ keys2).
Proof.
  revert acc. induction keys1 as [|[j|] keys1 IH]; intros acc Hacc; cbn; [| |done].
  - by apply xor32_all_xor_acc.
  - apply IH, xor32_keys_int32.
Qed.

Lemma elem_of_concat_fmap {A B : Type} (f : A → list B) (l : list A) (y : B) :
  y ∈ concat (f <$> l) ↔ ∃ x, x ∈ l ∧ y ∈ f x.
Proof.
  induction l as [|a l IH]; cbn.
  - split; [by intros ?%elem_of_nil | by intros (x & ?%elem_of_nil & _)].
  - rewrite elem_of_app, IH. split.
    + intros [Hy|(x & Hx & Hy)]; [exists a | exists x]; split; try done.
      * apply list_elem_of_here.
      * by apply list_elem_of_further.
    + intros (x & [->|Hx]%elem_of_cons & Hy); [by left | right; eauto].
Qed.

Lemma None_elem_of_square_feature hs pos i :
  None ∈ square_feature hs pos i
  ↔ ∃ p, pos_board pos !! i = Some (Some p) ∧ piece_key hs p i = None.
Proof.
  unfold square_feature. destruct (pos_board pos !! i) as [[p|]|].
  - rewrite list_elem_of_singleton. split; [eauto|]. by intros (q & [= <-] & <-).
  - split; [by intros ?%elem_of_nil | by intros (? & ? & _)].
  - split; [by intros ?%elem_of_nil | by intros (? & ? & _)].
Qed.

Lemma None_elem_of_castling_feature (held : bool) (key : option KeyPair) :
  None ∈ castling_feature held key ↔ held = true ∧ key = None.
Proof.
  unfold castling_feature. destruct held.
  - rewrite list_elem_of_singleton. split; [by intros <- | by intros [_ ->]].
  - split; [by intros ?%elem_of_nil | by intros [? _]].
Qed.

Lemma None_elem_of_ep_read hs pos :
  None ∈ ep_read hs pos
  ↔ pos_ep pos ≠ -1 ∧ js_index (hashes_epFile hs) (Z.rem (pos_ep pos) 8) = None.
Proof.
  unfold ep_read. case_bool_decide as Hep.
  - rewrite list_elem_of_singleton. split; [by intros <- | by intros [_ ->]].
  - split; [by intros ?%elem_of_nil | by intros [? _]].
Qed.

Lemma hash_None pos g : hash pos g = None ↔ None ∈ hash_reads (hashes g) pos.
Proof.
  rewrite hash_reads_spec, <- (xor32_all_None (0, 0)).
  by destruct (xor32_all (0, 0) (hash_reads (hashes g) pos)).
Qed.

(** X1: whatever numbers the table holds, a fingerprint that [hash]
    returns is a pair of 32-bit signed integers, and the call leaves the
    generator and the table as they were. *)
Theorem hash_returns_int32 pos g fp g' :
  hash pos g = Some (fp, g') → int32_pair fp ∧ g' = g.
Proof.
  rewrite hash_reads_spec.
  destruct (xor32_all (0, 0) (hash_reads (hashes g) pos)) as [fp0|] eqn:Hfp; [|done].
  intros [= <- <-]. split; [|done].
  eapply xor32_all_int32; [apply int32_pair_zero | done].
Qed.

(** X2: [hash] throws exactly when the table lacks a key-pair it reads: the
    one of the side to move, the one of a piece on one of the 64 squares,
    the one of a castling right held, or the one at [ep % 8] when [ep] is
    not [-1]. *)
Theorem hash_throws_iff_key_missing pos g :
  hash pos g = None
  ↔ hashes_turn (hashes g) (pos_turn pos) = None
    ∨ (∃ i p, (i < 64)%nat ∧ pos_board pos !! i = Some (Some p)
              ∧ piece_key (hashes g) p i = None)
    ∨ ((pos_wc pos).1 = true ∧ hashes_wc (hashes g) !! 0%nat = None)
    ∨ ((pos_wc pos).2 = true ∧ hashes_wc (hashes g) !! 1%nat = None)
    ∨ ((pos_bc pos).1 = true ∧ hashes_bc (hashes g) !! 0%nat = None)
    ∨ ((pos_bc pos).2 = true ∧ hashes_bc (hashes g) !! 1%nat = None)
    ∨ (pos_ep pos ≠ -1
       ∧ js_index (hashes_epFile (hashes g)) (Z.rem (pos_ep pos) 8) = None).
Proof.
  rewrite hash_None. unfold hash_reads.
  rewrite !elem_of_app, list_elem_of_singleton, elem_of_concat_fmap.
  rewrite !None_elem_of_castling_feature, None_elem_of_ep_read.
  assert ((∃ i, i ∈ seq 0 64 ∧ None ∈ square_feature (hashes g) pos i)
          ↔ ∃ i p, (i < 64)%nat ∧ pos_board pos !! i = Some (Some p)
                   ∧ piece_key (hashes g) p i = None) as ->.
  { split.
    - intros (i & Hi%elem_of_seq & (p & Hp & Hk)%None_elem_of_square_feature).
      exists i, p. split; [lia | done].
    - intros (i & p & Hi & Hp & Hk). exists i. split; [apply elem_of_seq; lia|].
      apply None_elem_of_square_feature. eauto. }
  split.
  - intros [<- | Hrest]; [by left | by right].
  - intros [-> | Hrest]; [by left | by right].
Qed.

(** X3: of a non-negative [ep], [hash] reads only the file, [ep % 8]: two
    positions that differ in [ep] by a multiple of 8 have the same hash. *)
Theorem hash_ep_file pos g (e e' : Z) :
  0 ≤ e → 0 ≤ e' → e `mod` 8 = e' `mod` 8 →
  hash (with_ep pos e) g = hash (with_ep pos e') g.
Proof.
  intros He He' Hmod. rewrite !hash_reads_spec. do 2 f_equal.
  unfold hash_reads, ep_read. cbn [with_ep pos_ep pos_turn pos_wc pos_bc].
  change (square_feature (hashes g) (with_ep pos e))
    with (square_feature (hashes g) (with_ep pos e')).
  rewrite !bool_decide_eq_true_2 by lia.
  by rewrite !Z.rem_mod_nonneg, Hmod by lia.
Qed.

(** X4: a negative [ep] other than [-1]: [ep % 8] keeps the sign of [ep],
    so [hash] reads [hashes.epFile] at a negative index and throws, except
    for a multiple of 8, where it reads file 0. *)
Theorem hash_negative_ep pos g (e : Z) :
  e < -1 →
  (Z.rem e 8 ≠ 0 → hash (with_ep pos e) g = None)
  ∧ (Z.rem e 8 = 0 → hash (with_ep pos e) g = hash (with_ep pos 0) g).
Proof.
  intros He. split.
  - intros Hrem. apply hash_None. unfold hash_reads.
    rewrite !elem_of_app. do 6 right.
    apply None_elem_of_ep_read. cbn [with_ep pos_ep]. split; [lia|].
    unfold js_index.
    destruct (Z.rem_bound_pos_neg e 8) as [_ Hle]; [lia | lia |].
    rewrite decide_True; [done | lia].
  - intros Hrem. rewrite !hash_reads_spec. do 2 f_equal.
    unfold hash_reads, ep_read. cbn [with_ep pos_ep pos_turn pos_wc pos_bc].
    change (square_feature (hashes g) (with_ep pos e))
      with (square_feature (hashes g) (with_ep pos 0)).
    rewrite !bool_decide_eq_true_2 by lia. by rewrite Hrem.
Qed.

Lemma square_feature_with_square_ne hs pos i sq j :
  j ≠ i → square_feature hs (with_square pos i sq) j = square_feature hs pos j.
Proof.
  intros Hne. unfold square_feature. cbn [with_square pos_board].
  by rewrite list_lookup_insert_ne.
Qed.

Lemma square_features_with_square hs pos i sq start n :
  (i < start ∨ start + n ≤ i)%nat →
  square_feature hs (with_square pos i sq) <$> seq start n
  = square_feature hs pos <$> seq start n.
Proof.
  intros Hi. apply list_fmap_ext. intros k j [-> Hk]%lookup_seq.
  apply square_feature_with_square_ne. lia.
Qed.

(** The keys read for the squares, before the square [i], at it and after
    it. *)
Lemma concat_square_feature_split hs pos i :
  (i < 64)%nat →
  concat (square_feature hs pos <$> seq 0 64)
  = concat (square_feature hs pos <$> seq 0 i)
    ++ square_feature hs pos i
    ++ concat (square_feature hs pos <$> seq (S i) (63 - i)).
Proof.
  intros Hi. replace 64%nat with (i + S (63 - i))%nat at 1 by lia.
  rewrite seq_app, fmap_app, concat_app. cbn [seq fmap list_fmap concat]. done.
Qed.

(** X5: placing a piece on an empty square XORs the key-pair of that piece
    on that square into the hash, and taking it off again XORs it out: the
    hash of either position is the hash of the other with [applyHashes] of
    that key-pair. *)
Theorem hash_place_piece pos g (i : nat) (p : Piece) k :
  (i < 64)%nat → pos_board pos !! i = Some None →
  piece_key (hashes g) p i = Some k →
  hash (with_square pos i (Some p)) g = bind (hash pos) (applyHashes (Some k)) g
  ∧ hash pos g = bind (hash (with_square pos i (Some p))) (applyHashes (Some k)) g.
Proof.
  intros Hi Hempty Hk.
  assert (hash (with_square pos i (Some p)) g
          = ((λ a, xor32_keys a k) <$> xor32_all (0, 0) (hash_reads (hashes g) pos))
            ≫= λ fp, Some (fp, g)) as Hplaced.
  { rewrite hash_reads_spec. f_equal. unfold hash_reads.
    change (ep_read (hashes g) (with_square pos i (Some p)))
      with (ep_read (hashes g) pos).
    cbn [with_square pos_turn pos_wc pos_bc].
    rewrite !(concat_square_feature_split (hashes g) _ i Hi).
    rewrite !square_features_with_square by lia.
    assert (square_feature (hashes g) (with_square pos i (Some p)) i = [Some k]) as ->.
    { unfold square_feature. cbn [with_square pos_board].
      rewrite list_lookup_insert_eq, Hk; [done|]. by eapply lookup_lt_Some. }
    assert (square_feature (hashes g) pos i = []) as ->
      by (unfold square_feature; by rewrite Hempty).
    set (before := concat (square_feature (hashes g) pos <$> seq 0 i)).
    set (after := concat (square_feature (hashes g) pos <$> seq (S i) (63 - i))).
    set (rest := castling_feature (pos_wc pos).1 _ ++ _).
    cbn [app]. rewrite <- !app_assoc. cbn [app].
    apply (xor32_all_insert (0, 0) k (hashes_turn (hashes g) (pos_turn pos) :: before)
             (after ++ rest) int32_pair_zero). }
  rewrite !bind_run, Hplaced, hash_reads_spec.
  destruct (xor32_all (0, 0) (hash_reads (hashes g) pos)) as [fp|] eqn:Hfp; cbn; [|done].
  split; [done|]. unfold ret.
  destruct (xor32_all_int32 _ _ _ int32_pair_zero Hfp) as [Hlow Hhigh].
  rewrite !xor32_twice by done. by destruct fp.
Qed.

(** X6: changing the side to move XORs the key-pair of the old side out of
    the hash and the one of the new side in. *)
Theorem hash_with_turn pos g (c c' : Color) kc kc' :
  hashes_turn (hashes g) c = Some kc → hashes_turn (hashes g) c' = Some kc' →
  hash (with_turn pos c') g
  = bind (bind (hash (with_turn pos c)) (applyHashes (Some kc))) (applyHashes (Some kc')) g.
Proof.
  intros Hc Hc'. rewrite !bind_run, !hash_reads_spec. unfold hash_reads.
  change (ep_read (hashes g) (with_turn pos c')) with (ep_read (hashes g) pos).
  change (ep_read (hashes g) (with_turn pos c)) with (ep_read (hashes g) pos).
  change (square_feature (hashes g) (with_turn pos c'))
    with (square_feature (hashes g) pos).
  change (square_feature (hashes g) (with_turn pos c))
    with (square_feature (hashes g) pos).
  cbn [with_turn pos_turn pos_wc pos_bc]. rewrite Hc, Hc'.
  set (rest := concat _ ++ _).
  cbn [app xor32_all]. rewrite !xor32_all_xor_acc by apply int32_pair_zero.
  destruct (xor32_all (0, 0) rest) as [fp|] eqn:Hfp; cbn; [|done].
  unfold ret.
  destruct (xor32_all_int32 _ _ _ int32_pair_zero Hfp) as [Hlow Hhigh].
  rewrite !xor32_twice by done. done.
Qed.

End HashReadsFacts.

(** ** The table that the initialisation builds *)

Section InitLayout.

Context {Piece : Type} `{Countable Piece}.
Variable mt : nat → Z.

Implicit Types (hs : Hashes (Piece := Piece)) (pos : Position (Piece := Piece)).
Implicit Types (g : Globals (Piece := Piece)) (p q : Piece).

(** With every piece once in the list, the piece at index [j] keeps the
    key-pairs drawn in the [j]-th run of the loop. *)
Lemma forEach_init_piece_layout (ps : list Piece) g :
  NoDup ps →
  ∃ g', forEach ps (init_piece mt) g = Some ((), g')
    ∧ (∀ j p, ps !! j = Some p →
         hashes_piece (hashes g') !! p = Some (keys_from mt (random g + 156 * j) 64))
    ∧ (∀ p, p ∉ ps → hashes_piece (hashes g') !! p = hashes_piece (hashes g) !! p).
Proof.
  induction ps as [|p ps IH] using rev_ind; intros Hnd.
  - exists g. split; [done|]. split; [by intros j p ?|done].
  - apply NoDup_app in Hnd as (Hnd & Hdisj & _).
    destruct (IH Hnd) as (g1 & Hrun & Hidx & Hout).
    destruct (forEach_init_piece_spec mt ps g) as (g1' & Hrun' & Hr & _).
    rewrite Hrun in Hrun'. injection Hrun' as <-.
    destruct (init_piece_spec mt p g1) as (g2 & Hrun2 & _ & Hp2 & _).
    exists g2. split; [|split].
    + rewrite forEach_app, bind_run, Hrun. cbn [forEach]. by rewrite bind_run, Hrun2.
    + intros j q Hj. rewrite Hp2.
      destruct (decide (j < length ps)%nat) as [Hlt|Hge].
      * rewrite lookup_app_l in Hj by done.
        rewrite lookup_insert_ne; [by apply Hidx|].
        intros ->. apply (Hdisj q); [by eapply list_elem_of_lookup_2|].
        apply list_elem_of_here.
      * rewrite lookup_app_r in Hj by lia.
        destruct (j - length ps)%nat as [|n] eqn:Hn; [|done].
        injection Hj as <-. assert (j = length ps) as -> by lia.
        by rewrite lookup_insert_eq, Hr.
    + intros q [Hq Hne%not_elem_of_cons]%not_elem_of_app. rewrite Hp2.
      rewrite lookup_insert_ne by (intros ->; by destruct Hne). by apply Hout.
Qed.

(** X7: the layout of the table.  With every piece once in [pieces], the
    key-pair of the piece at index [j] on square [i] is made of the calls
    [156 j + 2 i] and [156 j + 2 i + 1] of [rand()], and the key-pairs of the
    castling rights and of the en-passant files are made of the calls that
    follow the last piece's squares and turns; a piece outside [pieces] has
    no key. *)
Theorem init_key_layout (ps : list Piece) (p : Piece) :
  NoDup (ps ++ [p]) →
  ∃ g, init mt (ps ++ [p]) globals0 = Some ((), g)
    ∧ (∀ j q i, (ps ++ [p]) !! j = Some q → (i < 64)%nat →
         piece_key (hashes g) q i
         = Some (mt (156 * j + 2 * i)%nat, mt (156 * j + 2 * i + 1)%nat))
    ∧ (∀ q, q ∉ ps ++ [p] → hashes_piece (hashes g) !! q = None)
    ∧ (∀ s, (s < 2)%nat →
         hashes_wc (hashes g) !! s
         = Some (mt (156 * length ps + 132 + 2 * s)%nat,
                 mt (156 * length ps + 132 + 2 * s + 1)%nat)
         ∧ hashes_bc (hashes g) !! s
           = Some (mt (156 * length ps + 136 + 2 * s)%nat,
                   mt (156 * length ps + 136 + 2 * s + 1)%nat))
    ∧ (∀ f, (f < 8)%nat →
         hashes_epFile (hashes g) !! f
         = Some (mt (156 * length ps + 140 + 2 * f)%nat,
                 mt (156 * length ps + 140 + 2 * f + 1)%nat)).
Proof.
  intros Hnd. unfold init.
  destruct (forEach_init_piece_layout (ps ++ [p]) globals0 Hnd)
    as (g & Hrun & Hidx & Hout).
  destruct (forEach_init_piece_spec mt (ps ++ [p]) globals0)
    as (g' & Hrun' & _ & _ & Hlast).
  rewrite Hrun in Hrun'. injection Hrun' as <-.
  destruct (Hlast ps p eq_refl) as (_ & Hwc & Hbc & Hep).
  cbn -[keys_from Nat.mul] in Hwc, Hbc, Hep.
  exists g. split; [done|]. split; [|split; [|split]].
  - intros j q i Hj Hi. unfold piece_key. rewrite (Hidx j q Hj).
    cbn -[keys_from]. by rewrite keys_from_lookup.
  - intros q Hq. rewrite (Hout q Hq). cbn. apply lookup_empty.
  - intros s Hs. rewrite Hwc, Hbc, !keys_from_lookup by done. done.
  - intros f Hf. rewrite Hep, keys_from_lookup by done. done.
Qed.

Lemma init_complete_table (pieces : list Piece) g :
  pieces ≠ [] → init mt pieces globals0 = Some ((), g) →
  complete_table pieces (hashes g).
Proof.
  intros Hne Hinit. unfold init in Hinit.
  destruct (forEach_init_piece_spec mt pieces globals0)
    as (g' & Hrun & _ & Hpiece & Hlast).
  rewrite Hinit in Hrun. injection Hrun as <-.
  destruct (exists_last Hne) as (ps' & p' & ->).
  destruct (Hlast ps' p' eq_refl) as (Hturn & Hwc & Hbc & Hep).
  split; [|split; [|split; [|split]]].
  - intros p Hp.
    destruct (Hpiece p) as [(_ & j & _ & Hj)|(Hnin & _)]; [|done].
    eexists. split; [done|]. apply keys_from_length.
  - intros c. rewrite Hturn. eauto.
  - rewrite Hwc. apply keys_from_length.
  - rewrite Hbc. apply keys_from_length.
  - rewrite Hep. apply keys_from_length.
Qed.

Lemma hash_reads_complete (ps : list Piece) hs pos :
  complete_table ps hs → wf_position ps pos → None ∉ hash_reads hs pos.
Proof.
  intros (Hp & Hturn & Hwc & Hbc & Hep) (Hboard & Hge).
  assert (∀ (arr : list KeyPair) (i n : nat), length arr = n → (i < n)%nat →
            arr !! i ≠ None) as Hlk.
  { intros arr i n Hlen Hi Hnone. apply lookup_ge_None in Hnone. lia. }
  unfold hash_reads.
  rewrite !elem_of_app, list_elem_of_singleton, elem_of_concat_fmap.
  rewrite !None_elem_of_castling_feature, None_elem_of_ep_read.
  intros [Ht|[(i & Hi%elem_of_seq & (p & Hsq & Hk)%None_elem_of_square_feature)
          |[[_ Hk]|[[_ Hk]|[[_ Hk]|[[_ Hk]|[Hne Hk]]]]]]].
  - destruct (Hturn (pos_turn pos)) as [k Hk]. congruence.
  - destruct (Hp p (Hboard i p Hsq)) as (arr & Harr & Hlen).
    unfold piece_key in Hk. rewrite Harr in Hk. cbn in Hk.
    apply (Hlk arr i 64%nat); [done | lia | done].
  - by apply (Hlk _ 0%nat 2%nat Hwc); [lia|].
  - by apply (Hlk _ 1%nat 2%nat Hwc); [lia|].
  - by apply (Hlk _ 0%nat 2%nat Hbc); [lia|].
  - by apply (Hlk _ 1%nat 2%nat Hbc); [lia|].
  - unfold js_index in Hk.
    destruct (Z.rem_bound_pos_pos (pos_ep pos) 8) as [Hlo Hhi]; [lia | lia |].
    rewrite decide_False in Hk by lia.
    apply (Hlk _ (Z.to_nat (Z.rem (pos_ep pos) 8)) 8%nat Hep); [lia | done].
Qed.

(** X8: once the module is loaded with at least one piece, [hash] throws on
    no position whose pieces are among [pieces] and whose [ep] is [-1] or a
    square: it returns a fingerprint of 32-bit integers and leaves the
    module's state alone. *)
Theorem hash_succeeds_after_init (pieces : list Piece) pos g :
  pieces ≠ [] → init mt pieces globals0 = Some ((), g) →
  wf_position pieces pos →
  ∃ fp, hash pos g = Some (fp, g) ∧ int32_pair fp.
Proof.
  intros Hne Hinit Hwf.
  pose proof (hash_reads_complete pieces (hashes g) pos
                (init_complete_table pieces g Hne Hinit) Hwf) as Hreads.
  rewrite hash_reads_spec.
  destruct (xor32_all (0, 0) (hash_reads (hashes g) pos)) as [fp|] eqn:Hfp.
  - exists fp. split; [done|]. eapply xor32_all_int32; [apply int32_pair_zero | done].
  - by apply xor32_all_None in Hfp.
Qed.

(** X9: with an empty list of pieces the loop never runs: [hashes] stays
    [{}], no number is drawn, and [hash] throws on every position, at the
    read of [hashes.turn[pos.turn]]. *)
Theorem hash_throws_on_empty_table :
  init mt [] globals0 = Some ((), globals0 (Piece := Piece))
  ∧ ∀ pos, hash pos globals0 = None.
Proof. split; [done|]. intros pos. apply hash_None. apply list_elem_of_here. Qed.

End InitLayout.

(** ** What the LRU cache keeps *)

Section LRUMore.

Context {Move : Type}.

Implicit Types (m : LRU.JsMap Move) (c : LRU.LRU (Move := Move)).
Implicit Types (arr : gmap Z (Entry Move)) (k low a : Z) (hash : KeyPair).
Implicit Types (ops : list (Op Move)) (op : Op Move) (val : Entry Move).

Lemma last_add_snoc ops op hash :
  last_add (ops ++ [op]) hash
  = match op with
    | OpAdd h val => if decide (h = hash) then Some val else last_add ops hash
    | OpGet _ => last_add ops hash
    end.
Proof. unfold last_add. by rewrite foldl_snoc. Qed.

Lemma last_add_not_stored ops hash : ¬ stored_in ops hash → last_add ops hash = None.
Proof.
  induction ops as [|op ops IH] using rev_ind; [done|]. intros Hns.
  rewrite last_add_snoc. destruct op as [h|h val].
  - apply IH. intros Hs. apply Hns. by apply stored_in_snoc.
  - case_decide as Hh.
    + destruct Hns. subst h. exists val. apply elem_of_app. right.
      apply list_elem_of_here.
    + apply IH. intros Hs. apply Hns. by apply stored_in_snoc.
Qed.

Lemma count_adds_snoc ops op :
  count_adds (ops ++ [op])
  = (count_adds ops + match op with OpAdd _ _ => 1 | OpGet _ => 0 end)%nat.
Proof.
  induction ops as [|[h|h v] ops IH]; cbn [app count_adds].
  - destruct op; done.
  - done.
  - by rewrite IH.
Qed.

Lemma get_get c hash hash' : (LRU.get (LRU.get c hash).2 hash').1 = (LRU.get c hash').1.
Proof. by rewrite !get_result, Map_get_get. Qed.

(** What a [get] finds after the store of [add]. *)
Lemma get_add_store_lru c hash val hash' :
  (LRU.get (LRU.add_store c hash val) hash').1
  = if decide (hash' = hash) then Some val else (LRU.get c hash').1.
Proof.
  rewrite !get_result, Map_get_add_store.
  destruct hash as [low high], hash' as [low' high']. cbn [fst snd].
  destruct (decide (low' = low)) as [->|Hl]; cbn.
  - destruct (decide (high' = high)) as [->|Hh].
    + by rewrite lookup_insert_eq, decide_True.
    + rewrite lookup_insert_ne, decide_False by congruence.
      by destruct (LRU.Map_get (LRU.map c) low).
  - by rewrite decide_False by congruence.
Qed.

(** The eviction takes a whole group away or nothing. *)
Lemma get_add_evict_cases c hash' :
  (LRU.get (LRU.add_evict c) hash').1 = (LRU.get c hash').1
  ∨ (LRU.get (LRU.add_evict c) hash').1 = None.
Proof.
  rewrite !get_result. unfold LRU.add_evict. case_decide; [|by left].
  destruct (LRU.Map_first_key (LRU.map c)) as [k0|]; cbn [LRU.map]; [|by left].
  rewrite Map_get_delete. case_decide; [by right | by left].
Qed.

(** With room for one group at least, the eviction spares the group that
    [add] has just written. *)
Lemma Map_get_add_written c hash val :
  1 ≤ LRU.maxSize c →
  LRU.Map_get (LRU.map (LRU.add c hash val)) hash.1
  = LRU.Map_get (LRU.map (LRU.add_store c hash val)) hash.1.
Proof.
  intros Hmax. unfold LRU.add.
  pose proof (maxSize_add_store c hash val) as Hm.
  pose proof (Map_keys_add_store c hash val) as Hks.
  set (mid := LRU.add_store c hash val) in *.
  unfold LRU.add_evict.
  destruct (decide (LRU.maxSize mid < LRU.Map_size (LRU.map mid))) as [Hlt|Hge]; [|done].
  rewrite Map_first_key_keys, Hks. rewrite Map_size_keys, Hks in Hlt.
  destruct (filter (λ j, j ≠ hash.1) (LRU.Map_keys (LRU.map c))) as [|k0 ks] eqn:Hf.
  { cbn in Hlt. lia. }
  cbn [app head LRU.map]. rewrite Map_get_delete.
  assert (k0 ∈ filter (λ j, j ≠ hash.1) (LRU.Map_keys (LRU.map c))) as Hin
    by (rewrite Hf; apply list_elem_of_here).
  apply list_elem_of_filter in Hin as [Hne _].
  by rewrite decide_False by (intros E; by apply Hne).
Qed.

(** X10: the LRU cache returns no stale entry.  After any calls on a new
    cache, an entry that [get] returns is the one of the last [add] at that
    key-pair. *)
Theorem LRU_get_returns_last_add (maxSize : Z) c0 ops hash val :
  LRU.new maxSize = Some c0 →
  (LRU.get (LRU.run c0 ops) hash).1 = Some val → last_add ops hash = Some val.
Proof.
  intros [= <-]. revert val.
  induction ops as [|op ops IH] using rev_ind; intros val.
  - intros Hget. by rewrite get_result in Hget.
  - rewrite run_snoc, last_add_snoc. destruct op as [h|h v]; cbn [LRU.step].
    + rewrite get_get. apply IH.
    + unfold LRU.add. intros Hget.
      destruct (get_add_evict_cases (LRU.add_store (LRU.run (LRU.mkLRU [] maxSize) ops) h v)
                  hash) as [E|E]; rewrite E in Hget; [|done].
      rewrite get_add_store_lru in Hget.
      destruct (decide (hash = h)) as [->|Hne].
      * by rewrite decide_True.
      * rewrite decide_False by congruence. by apply IH.
Qed.

(** X11: what an [add] leaves of the other entries.  An entry at another
    key-pair is, after the [add], as it was before or absent (its group was
    evicted); with [maxSize ≥ 1] the entries that share their [low] with the
    key-pair written are all as before. *)
Theorem LRU_add_other_entries c hash val hash' :
  hash' ≠ hash →
  ((LRU.get (LRU.add c hash val) hash').1 = (LRU.get c hash').1
   ∨ (LRU.get (LRU.add c hash val) hash').1 = None)
  ∧ (1 ≤ LRU.maxSize c → hash'.1 = hash.1 →
     (LRU.get (LRU.add c hash val) hash').1 = (LRU.get c hash').1).
Proof.
  intros Hne. split.
  - unfold LRU.add.
    destruct (get_add_evict_cases (LRU.add_store c hash val) hash') as [E|E];
      [left | by right].
    by rewrite E, get_add_store_lru, decide_False.
  - intros Hmax Hlow. rewrite get_result, Hlow, Map_get_add_written by done.
    rewrite <- Hlow, <- get_result. by rewrite get_add_store_lru, decide_False.
Qed.

(** X12: a [get] changes the order of the groups only: after it every
    key-pair holds what it held, and [size()] is what it was. *)
Theorem LRU_get_keeps_entries (maxSize : Z) c0 ops hash hash' :
  LRU.new maxSize = Some c0 →
  (LRU.get (LRU.get (LRU.run c0 ops) hash).2 hash').1 = (LRU.get (LRU.run c0 ops) hash').1
  ∧ LRU.size (LRU.get (LRU.run c0 ops) hash).2 = LRU.size (LRU.run c0 ops).
Proof.
  intros [= <-]. split; [apply get_get|].
  apply size_get. by apply NoDup_keys_run.
Qed.

(** X13: the LRU cache is exact until it is full.  After calls with at most
    [maxSize] calls of [add] among them nothing has been evicted: [get]
    returns for every key-pair the entry of the last [add] at it, and absent
    when there is none. *)
Theorem LRU_exact_until_full (maxSize : Z) c0 ops hash :
  LRU.new maxSize = Some c0 → Z.of_nat (count_adds ops) ≤ maxSize →
  (LRU.get (LRU.run c0 ops) hash).1 = last_add ops hash.
Proof.
  intros [= <-]. revert hash.
  assert (Z.of_nat (count_adds ops) ≤ maxSize →
          LRU.size (LRU.run (LRU.mkLRU [] maxSize) ops) ≤ Z.of_nat (count_adds ops)
          ∧ ∀ hash, (LRU.get (LRU.run (LRU.mkLRU [] maxSize) ops) hash).1
                    = last_add ops hash) as Hinv; [|intros hash Hle; by apply Hinv].
  induction ops as [|op ops IH] using rev_ind.
  - intros _. split; [done|]. intros hash. by rewrite get_result.
  - rewrite count_adds_snoc, run_snoc. intros Hle.
    destruct IH as [Hsize Hget]; [lia|].
    pose proof (NoDup_keys_run (LRU.mkLRU [] maxSize) ops eq_refl) as Hnd.
    set (c := LRU.run (LRU.mkLRU [] maxSize) ops) in *.
    destruct op as [h|h v]; cbn [LRU.step].
    + rewrite size_get by done. split; [lia|]. intros hash.
      by rewrite get_get, last_add_snoc.
    + pose proof (size_add_store c h v Hnd) as Hmid.
      assert (LRU.add c h v = LRU.add_store c h v) as ->.
      { unfold LRU.add. apply add_evict_id. rewrite maxSize_add_store.
        unfold c at 1. rewrite maxSize_run. cbn [LRU.maxSize].
        destruct (LRU.Map_get (LRU.map c) h.1); lia. }
      split; [destruct (LRU.Map_get (LRU.map c) h.1); lia|].
      intros hash. rewrite get_add_store_lru, last_add_snoc.
      destruct (decide (hash = h)) as [->|Hne].
      * by rewrite decide_True.
      * by rewrite decide_False by congruence.
Qed.

End LRUMore.

(** ** How long the LRU cache keeps an entry *)

Section LRURetention.

Context {Move : Type}.

Implicit Types (c : LRU.LRU (Move := Move)) (k a : Z) (hash : KeyPair).
Implicit Types (ops : list (Op Move)) (op : Op Move) (val : Entry Move).
Implicit Types (ks : list Z).

Lemma behind_refresh_self a ks : behind a 0 (filter (λ j, j ≠ a) ks ++ [a]).
Proof. exists (filter (λ j, j ≠ a) ks), []. done. Qed.

Lemma behind_refresh_other a k n ks :
  k ≠ a → behind a n ks → behind a (S n) (filter (λ j, j ≠ k) ks ++ [k]).
Proof.
  intros Hne (l1 & l2 & -> & Hlen).
  exists (filter (λ j, j ≠ k) l1), (filter (λ j, j ≠ k) l2 ++ [k]).
  split.
  - rewrite filter_app, filter_ne_cons_ne by done. by rewrite <- app_assoc.
  - rewrite length_app. cbn [length].
    pose proof (length_filter (λ j, j ≠ k) l2). lia.
Qed.

Lemma behind_weaken a n n' ks : (n ≤ n')%nat → behind a n ks → behind a n' ks.
Proof. intros Hle (l1 & l2 & -> & Hlen). exists l1, l2. split; [done | lia]. Qed.

Lemma behind_elem_of a n ks : behind a n ks → a ∈ ks.
Proof.
  intros (l1 & l2 & -> & _). apply elem_of_app. right. apply list_elem_of_here.
Qed.

(** A key at the head of the list has all the other keys after it. *)
Lemma behind_head a n ks : NoDup (a :: ks) → behind a n (a :: ks) → (length ks ≤ n)%nat.
Proof.
  intros Hnd (l1 & l2 & Heq & Hlen). destruct l1 as [|x l1].
  - by injection Heq as ->.
  - injection Heq as <- ->. apply NoDup_cons_1_1 in Hnd. destruct Hnd.
    apply elem_of_app. right. apply list_elem_of_here.
Qed.

Lemma behind_tail a k0 n ks : k0 ≠ a → behind a n (k0 :: ks) → behind a n ks.
Proof.
  intros Hne (l1 & l2 & Heq & Hlen). destruct l1 as [|x l1].
  - by injection Heq as ->.
  - injection Heq as <- ->. by exists l1, l2.
Qed.

(** The keys after an [add] on a group other than [a], with room left for
    the groups touched since [a]. *)
Lemma behind_add c hash val a n :
  NoDup (LRU.Map_keys (LRU.map c)) → hash.1 ≠ a →
  behind a n (LRU.Map_keys (LRU.map c)) → Z.of_nat n + 2 ≤ LRU.maxSize c →
  behind a (S n) (LRU.Map_keys (LRU.map (LRU.add c hash val)))
  ∧ LRU.Map_get (LRU.map (LRU.add c hash val)) a = LRU.Map_get (LRU.map c) a.
Proof.
  intros Hnd Hne Hb Hmax. unfold LRU.add.
  pose proof (behind_refresh_other a hash.1 n _ Hne Hb) as Hmid.
  rewrite <- (Map_keys_add_store c hash val) in Hmid.
  pose proof (NoDup_keys_add_store c hash val Hnd) as Hndmid.
  pose proof (maxSize_add_store c hash val) as Hm.
  assert (LRU.Map_get (LRU.map (LRU.add_store c hash val)) a = LRU.Map_get (LRU.map c) a)
    as Hget by (rewrite Map_get_add_store, decide_False; [done | congruence]).
  set (mid := LRU.add_store c hash val) in *.
  destruct (decide (LRU.maxSize mid < LRU.size mid)) as [Hlt|Hge].
  - destruct (LRU.Map_keys (LRU.map mid)) as [|k0 ks] eqn:Hks.
    { by apply behind_elem_of, elem_of_nil in Hmid. }
    destruct (add_evict_spec mid k0 ks Hks Hndmid Hlt) as (_ & Hmap & Hkeys & _).
    assert (k0 ≠ a) as Hk0.
    { intros ->. pose proof (behind_head a (S n) ks Hndmid Hmid) as Hlen.
      unfold LRU.size in Hlt. rewrite Map_size_keys, Hks in Hlt. cbn [length] in Hlt. lia. }
    split.
    + rewrite Hkeys. by eapply behind_tail.
    + rewrite Hmap, Map_get_delete, decide_False by congruence. done.
  - rewrite add_evict_id by done. done.
Qed.

(** The group that [add] writes is the last key afterwards. *)
Lemma behind_add_self c hash val :
  NoDup (LRU.Map_keys (LRU.map c)) → 1 ≤ LRU.maxSize c →
  behind hash.1 0 (LRU.Map_keys (LRU.map (LRU.add c hash val))).
Proof.
  intros Hnd Hmax. unfold LRU.add.
  pose proof (behind_refresh_self hash.1 (LRU.Map_keys (LRU.map c))) as Hmid.
  pose proof (Map_keys_add_store c hash val) as Hkeys.
  rewrite <- Hkeys in Hmid.
  pose proof (NoDup_keys_add_store c hash val Hnd) as Hndmid.
  pose proof (maxSize_add_store c hash val) as Hm.
  set (mid := LRU.add_store c hash val) in *.
  destruct (decide (LRU.maxSize mid < LRU.size mid)) as [Hlt|Hge].
  - destruct (LRU.Map_keys (LRU.map mid)) as [|k0 ks] eqn:Hks.
    { by apply behind_elem_of, elem_of_nil in Hmid. }
    destruct (add_evict_spec mid k0 ks Hks Hndmid Hlt) as (_ & _ & -> & _).
    apply (behind_tail _ k0); [|done]. intros ->.
    pose proof (behind_head hash.1 0 ks Hndmid Hmid) as Hlen.
    unfold LRU.size in Hlt. rewrite Map_size_keys, Hks in Hlt. cbn [length] in Hlt. lia.
  - by rewrite add_evict_id.
Qed.

(** One call, not an [add] at [hash], keeps the entry at [hash], with one
    more group touched since. *)
Lemma entry_survives_step c op hash val n :
  NoDup (LRU.Map_keys (LRU.map c)) →
  (∀ v, op ≠ OpAdd hash v) →
  behind hash.1 n (LRU.Map_keys (LRU.map c)) → Z.of_nat n + 2 ≤ LRU.maxSize c →
  (LRU.get c hash).1 = Some val →
  behind hash.1 (S n) (LRU.Map_keys (LRU.map (LRU.step c op)))
  ∧ (LRU.get (LRU.step c op) hash).1 = Some val.
Proof.
  intros Hnd Hop Hb Hmax Hget. destruct op as [h|h v]; cbn [LRU.step].
  - split; [|by rewrite get_get].
    rewrite Map_keys_get. destruct (LRU.Map_get (LRU.map c) h.1) as [arr|].
    + destruct (decide (h.1 = hash.1)) as [->|Hne].
      * eapply behind_weaken; [|apply behind_refresh_self]. lia.
      * by apply behind_refresh_other.
    + eapply behind_weaken; [|done]. lia.
  - assert (h ≠ hash) as Hh by (intros ->; by apply (Hop v)).
    destruct (decide (h.1 = hash.1)) as [Heq|Hne].
    + split.
      * rewrite <- Heq. eapply behind_weaken; [|apply behind_add_self; [done | lia]]. lia.
      * rewrite get_result, <- Heq, Map_get_add_written by lia.
        rewrite Heq, <- get_result, get_add_store_lru, decide_False by congruence. done.
    + destruct (behind_add c h v hash.1 n Hnd Hne Hb Hmax) as [Hb' Hg'].
      split; [done|]. by rewrite get_result, Hg', <- get_result.
Qed.

Lemma NoDup_keys_step c op :
  NoDup (LRU.Map_keys (LRU.map c)) → NoDup (LRU.Map_keys (LRU.map (LRU.step c op))).
Proof.
  intros Hnd. destruct op as [h|h v]; cbn [LRU.step].
  - rewrite Map_keys_get. destruct (LRU.Map_get (LRU.map c) h.1); [|done].
    apply NoDup_app. split; [by apply NoDup_filter|]. split; [|apply NoDup_singleton].
    intros k [Hne _]%list_elem_of_filter ->%list_elem_of_singleton. done.
  - unfold LRU.add. pose proof (NoDup_keys_add_store c h v Hnd) as Hmid.
    unfold LRU.add_evict. case_decide; [|done].
    destruct (LRU.Map_first_key _); [|done]. cbn [LRU.map].
    rewrite Map_keys_delete. by apply NoDup_filter.
Qed.

(** X14: how long an entry is kept.  An entry added to a cache stays in it
    through the next calls, whatever they are, as long as they are fewer than
    [maxSize] and none of them is an [add] at the same key-pair: [get]
    returns it. *)
Theorem LRU_entry_survives (maxSize : Z) c0 ops0 hash val ops :
  LRU.new maxSize = Some c0 →
  Z.of_nat (length ops) < maxSize → ¬ stored_in ops hash →
  (LRU.get (LRU.run (LRU.add (LRU.run c0 ops0) hash val) ops) hash).1 = Some val.
Proof.
  intros [= <-] Hlen Hns.
  set (c := LRU.add (LRU.run (LRU.mkLRU [] maxSize) ops0) hash val).
  assert (LRU.maxSize c = maxSize) as Hm.
  { unfold c, LRU.add. by rewrite maxSize_add_evict, maxSize_add_store, maxSize_run. }
  pose proof (NoDup_keys_run (LRU.mkLRU [] maxSize) ops0 eq_refl) as Hnd0.
  assert (NoDup (LRU.Map_keys (LRU.map c))) as Hnd
    by apply (NoDup_keys_step _ (OpAdd hash val) Hnd0).
  assert (behind hash.1 0 (LRU.Map_keys (LRU.map c))) as Hb.
  { apply behind_add_self; [done|]. rewrite maxSize_run. cbn. lia. }
  assert ((LRU.get c hash).1 = Some val) as Hget.
  { apply get_add. rewrite maxSize_run. cbn. lia. }
  clearbody c. clear Hnd0.
  assert (NoDup (LRU.Map_keys (LRU.map (LRU.run c ops)))
          ∧ behind hash.1 (length ops) (LRU.Map_keys (LRU.map (LRU.run c ops)))
          ∧ (LRU.get (LRU.run c ops) hash).1 = Some val) as (_ & _ & Hfinal); [|done].
  induction ops as [|op ops IH] using rev_ind; [done|].
  rewrite length_app in Hlen |- *. cbn [length] in Hlen |- *.
  destruct IH as (Hnd' & Hb' & Hget'); [lia | |].
  { intros Hs. apply Hns. by apply stored_in_snoc. }
  rewrite run_snoc. split; [by apply NoDup_keys_step|].
  replace (length ops + 1)%nat with (S (length ops)) by lia.
  apply entry_survives_step; try done.
  - intros v ->. apply Hns. exists v. apply elem_of_app. right. apply list_elem_of_here.
  - rewrite maxSize_run, Hm. lia.
Qed.

End LRURetention.

(** ** What the flush cache keeps *)

Section CacheMore.

Context {Move : Type}.

Implicit Types (c : Cache.Cache (Move := Move)) (hash : KeyPair).
Implicit Types (ops : list (Op Move)) (op : Op Move) (val : Entry Move).

(** The reset takes everything away or nothing. *)
Lemma get_add_reset_cases c hash :
  Cache.get (Cache.add_reset c) hash = Cache.get c hash
  ∨ Cache.get (Cache.add_reset c) hash = None.
Proof.
  unfold Cache.add_reset. case_decide; [right | by left].
  unfold Cache.get. cbn. by rewrite lookup_empty.
Qed.

(** X15: the flush cache returns no stale entry.  After any calls on a new
    cache, an entry that [get] returns is the one of the last [add] at that
    key-pair. *)
Theorem Cache_get_returns_last_add (maxSize : Z) c0 ops hash val :
  Cache.new maxSize = Some c0 →
  Cache.get (Cache.run c0 ops) hash = Some val → last_add ops hash = Some val.
Proof.
  intros [= <-]. revert val.
  induction ops as [|op ops IH] using rev_ind; intros val.
  - cbn. unfold Cache.get. cbn. by rewrite lookup_empty.
  - rewrite run_snoc_cache, last_add_snoc. destruct op as [h|h v]; cbn [Cache.step].
    + apply IH.
    + unfold Cache.add. rewrite get_add_store.
      destruct (decide (hash = h)) as [->|Hne].
      * by rewrite decide_True.
      * rewrite decide_False by congruence. intros Hget.
        destruct (get_add_reset_cases (Cache.run (Cache.mkCache ∅ maxSize 0) ops) hash)
          as [E|E]; rewrite E in Hget; [by apply IH | done].
Qed.

(** X16: an [add] on a cache that is not full writes one slot and nothing
    else: the entry is found at its key-pair, every other key-pair holds what
    it held, and [size()] grows by one exactly when the slot was empty. *)
Theorem Cache_add_when_not_full c hash val :
  Cache.size c ≠ Cache.maxSize c →
  (∀ hash', Cache.get (Cache.add c hash val) hash'
            = if decide (hash' = hash) then Some val else Cache.get c hash')
  ∧ Cache.size (Cache.add c hash val)
    = Cache.size c + (if Cache.get c hash is Some _ then 0 else 1).
Proof.
  intros Hnf. destruct (add_not_full c hash val Hnf) as [Hsize Hget].
  split; [done|]. rewrite Hsize. destruct (Cache.get c hash); lia.
Qed.

(** X17: the flush cache is exact until it is full.  After calls with at
    most [maxSize] calls of [add] among them nothing has been flushed: [get]
    returns for every key-pair the entry of the last [add] at it, and absent
    when there is none. *)
Theorem Cache_exact_until_full (maxSize : Z) c0 ops hash :
  Cache.new maxSize = Some c0 → Z.of_nat (count_adds ops) ≤ maxSize →
  Cache.get (Cache.run c0 ops) hash = last_add ops hash.
Proof.
  intros [= <-]. revert hash.
  assert (Z.of_nat (count_adds ops) ≤ maxSize →
          Cache.size (Cache.run (Cache.mkCache ∅ maxSize 0) ops) ≤ Z.of_nat (count_adds ops)
          ∧ ∀ hash, Cache.get (Cache.run (Cache.mkCache ∅ maxSize 0) ops) hash
                    = last_add ops hash) as Hinv; [|intros hash Hle; by apply Hinv].
  induction ops as [|op ops IH] using rev_ind.
  - intros _. split; [done|]. intros hash. unfold Cache.get. cbn. by rewrite lookup_empty.
  - rewrite count_adds_snoc, run_snoc_cache. intros Hle.
    destruct IH as [Hsize Hget]; [lia|].
    pose proof (maxSize_run_cache (Cache.mkCache ∅ maxSize 0) ops) as Hm.
    set (c := Cache.run (Cache.mkCache ∅ maxSize 0) ops) in *. cbn in Hm.
    destruct op as [h|h v]; cbn [Cache.step].
    + split; [lia|]. intros hash. by rewrite last_add_snoc.
    + destruct (add_not_full c h v) as [Hs Hg]; [lia|].
      split; [rewrite Hs; destruct (Cache.get c h); lia|].
      intros hash. rewrite Hg, last_add_snoc.
      destruct (decide (hash = h)) as [->|Hne].
      * by rewrite decide_True.
      * by rewrite decide_False by congruence.
Qed.

Lemma get_None_of_count_0 c hash :
  Cache.entry_count c = 0 → Cache.get c hash = None.
Proof.
  intros Hcount. unfold Cache.get.
  destruct (Cache.cache c !! hash.1) as [row|] eqn:Hrow; [|done].
  destruct (row !! hash.2) as [v|] eqn:Hv; [|done].
  pose proof (count_rows_occupied _ _ _ _ _ Hrow Hv) as Hone.
  unfold Cache.entry_count in Hcount. lia.
Qed.

(** X18: a flush cache made with [maxSize ≤ 0] never drops an entry: the
    test [currentSize === maxSize] succeeds on an empty cache only, so after
    any calls [get] returns for every key-pair the entry of the last [add]
    at it, and [size()] is not bounded by [maxSize]. *)
Theorem Cache_nonpositive_maxSize_keeps_all (maxSize : Z) c0 ops hash :
  maxSize ≤ 0 → Cache.new maxSize = Some c0 →
  Cache.get (Cache.run c0 ops) hash = last_add ops hash
  ∧ (count_adds ops ≠ 0%nat → maxSize < Cache.size (Cache.run c0 ops)).
Proof.
  intros Hmax [= <-].
  assert (∀ ops,
    (∀ hash, Cache.get (Cache.run (Cache.mkCache ∅ maxSize 0) ops) hash = last_add ops hash)
    ∧ (count_adds ops ≠ 0%nat → 1 ≤ Cache.size (Cache.run (Cache.mkCache ∅ maxSize 0) ops)))
    as Hinv.
  { clear ops hash. intros ops. induction ops as [|op ops IH] using rev_ind.
    - split; [|done]. intros hash. unfold Cache.get. cbn. by rewrite lookup_empty.
    - destruct IH as [Hget Hsize].
      rewrite count_adds_snoc, run_snoc_cache.
      pose proof (run_count (Cache.mkCache ∅ maxSize 0) ops eq_refl eq_refl) as Hcount.
      pose proof (count_rows_nonneg
                    (Cache.cache (Cache.run (Cache.mkCache ∅ maxSize 0) ops))) as Hnn.
      pose proof (maxSize_run_cache (Cache.mkCache ∅ maxSize 0) ops) as Hm.
      set (c := Cache.run (Cache.mkCache ∅ maxSize 0) ops) in *. cbn in Hm.
      fold (Cache.entry_count c) in Hnn.
      destruct op as [h|h v]; cbn [Cache.step].
      + split; [intros hash; by rewrite last_add_snoc|].
        intros Hc. apply Hsize. lia.
      + assert (∀ hash, Cache.get (Cache.add_reset c) hash = Cache.get c hash) as Hreset.
        { intros hash. unfold Cache.add_reset. case_decide as Hfull; [|done].
          rewrite (get_None_of_count_0 c hash) by lia.
          unfold Cache.get. cbn. by rewrite lookup_empty. }
        assert (0 ≤ Cache.size (Cache.add_reset c)) as Hrs.
        { unfold Cache.add_reset, Cache.size. case_decide; cbn; lia. }
        split.
        * intros hash. unfold Cache.add. rewrite get_add_store, Hreset, Hget, last_add_snoc.
          destruct (decide (hash = h)) as [->|Hne].
          -- by rewrite decide_True.
          -- by rewrite decide_False by congruence.
        * intros _. unfold Cache.add. rewrite add_store_size.
          destruct (Cache.get (Cache.add_reset c) h) as [v'|] eqn:Hv; [|lia].
          rewrite Hreset in Hv.
          assert (Cache.add_reset c = c) as ->.
          { apply add_reset_not_full. unfold Cache.size.
            pose proof (get_None_of_count_0 c h) as Hnone.
            intros Hfull. rewrite Hnone in Hv; [done | lia]. }
          unfold Cache.size. rewrite Hcount. unfold Cache.get in Hv.
          destruct (Cache.cache c !! h.1) as [row|] eqn:Hrow; [|done].
          by eapply count_rows_occupied. }
  destruct (Hinv ops) as [Hget Hsize]. split; [done|].
  intros Hc. specialize (Hsize Hc). lia.
Qed.

End CacheMore.

(** ** Castling rights, the en-passant file, and the size of the LRU cache *)

Section HashToggles.

Context {Piece : Type} `{Countable Piece}.

Implicit Types (hs : Hashes (Piece := Piece)) (pos : Position (Piece := Piece)).
Implicit Types (g : Globals (Piece := Piece)) (acc k : KeyPair).

Lemma xor32_all_toggle acc (held : bool) k pre post :
  int32_pair acc →
  xor32_all acc (pre ++ castling_feature (negb held) (Some k) ++ post)
  = (λ a, xor32_keys a k) <$> xor32_all acc (pre ++ castling_feature held (Some k) ++ post).
Proof.
  intros Hacc. destruct held; cbn [negb castling_feature app].
  - rewrite xor32_all_insert by done.
    destruct (xor32_all acc (pre ++ post)) as [a|] eqn:Ha; cbn; [|done].
    by rewrite xor32_keys_twice by (by eapply xor32_all_int32).
  - by apply xor32_all_insert.
Qed.

(** What [hash] returns when the keys read give [o]. *)
Lemma bind_hash_applyHashes pos g k :
  bind (hash pos) (applyHashes (Some k)) g
  = ((λ a, xor32_keys a k) <$> xor32_all (0, 0) (hash_reads (hashes g) pos))
    ≫= λ fp, Some (fp, g).
Proof.
  rewrite bind_run, hash_reads_spec.
  by destruct (xor32_all (0, 0) (hash_reads (hashes g) pos)).
Qed.

(** X19: toggling any of the four castling rights XORs the key-pair of
    that right into the hash (and so toggling it twice gives the hash
    back), whatever numbers the table holds. *)
Theorem hash_toggle_right pos g (r : Right) k :
  right_key (hashes g) r = Some k →
  hash (toggle_right pos r) g = bind (hash pos) (applyHashes (Some k)) g
  ∧ hash (toggle_right (toggle_right pos r) r) g = hash pos g.
Proof.
  intros Hk.
  assert (∀ pos, hash (toggle_right pos r) g = bind (hash pos) (applyHashes (Some k)) g)
    as Htoggle.
  { clear pos. intros pos. rewrite bind_hash_applyHashes, hash_reads_spec. f_equal.
    unfold hash_reads.
    set (t := [hashes_turn (hashes g) (pos_turn pos)]).
    set (sq := concat (square_feature (hashes g) pos <$> seq 0 64)).
    set (e := ep_read (hashes g) pos).
    destruct r; cbn [right_key] in Hk;
      change (ep_read (hashes g) (toggle_right pos _)) with e;
      change (square_feature (hashes g) (toggle_right pos _))
        with (square_feature (hashes g) pos);
      cbn [toggle_right pos_turn pos_wc pos_bc fst snd]; rewrite Hk; fold t sq.
    - rewrite !(app_assoc t sq).
      apply xor32_all_toggle, int32_pair_zero.
    - rewrite !(app_assoc sq), !(app_assoc t).
      apply xor32_all_toggle, int32_pair_zero.
    - rewrite !(app_assoc (castling_feature (pos_wc pos).1 _)), !(app_assoc sq),
        !(app_assoc t).
      apply xor32_all_toggle, int32_pair_zero.
    - rewrite !(app_assoc (castling_feature (pos_wc pos).2 _)),
        !(app_assoc (castling_feature (pos_wc pos).1 _)), !(app_assoc sq), !(app_assoc t).
      apply xor32_all_toggle, int32_pair_zero. }
  split; [apply Htoggle|].
  rewrite Htoggle, bind_run, Htoggle, bind_hash_applyHashes, hash_reads_spec.
  destruct (xor32_all (0, 0) (hash_reads (hashes g) pos)) as [fp|] eqn:Hfp; cbn; [|done].
  unfold ret.
  destruct (xor32_all_int32 _ _ _ int32_pair_zero Hfp) as [Hlow Hhigh].
  rewrite !xor32_twice by done. by destruct fp.
Qed.

(** X20: giving a position without en-passant square the en-passant
    square [e] XORs the key-pair of the file of [e] into the hash. *)
Theorem hash_set_ep pos g (e : Z) k :
  pos_ep pos = -1 → 0 ≤ e →
  hashes_epFile (hashes g) !! Z.to_nat (e `mod` 8) = Some k →
  hash (with_ep pos e) g = bind (hash pos) (applyHashes (Some k)) g.
Proof.
  intros Hnone He Hk. rewrite bind_hash_applyHashes, hash_reads_spec. f_equal.
  unfold hash_reads, ep_read.
  change (square_feature (hashes g) (with_ep pos e)) with (square_feature (hashes g) pos).
  cbn [with_ep pos_ep pos_turn pos_wc pos_bc]. rewrite Hnone.
  rewrite bool_decide_eq_true_2 by lia.
  rewrite (bool_decide_eq_false_2 (-1 ≠ -1)) by (intros Hne; by apply Hne).
  rewrite Z.rem_mod_nonneg by lia. unfold js_index.
  pose proof (Z.mod_pos_bound e 8). rewrite decide_False by lia. rewrite Hk.
  rewrite !app_assoc.
  rewrite (xor32_all_insert (0, 0) k _ [] int32_pair_zero). by rewrite !app_nil_r.
Qed.

End HashToggles.

Section LRUSize.

Context {Move : Type}.

Implicit Types (hash : KeyPair) (ops : list (Op Move)) (val : Entry Move).

(** X21: the size of the LRU cache after an [add], for a cache made with
    [maxSize ≥ 0]: unchanged when the group of the key-pair is in the cache,
    else one more, up to [maxSize]. *)
Theorem LRU_size_after_add (maxSize : Z) c0 ops hash val :
  0 ≤ maxSize → LRU.new maxSize = Some c0 →
  LRU.size (LRU.add (LRU.run c0 ops) hash val)
  = if decide (hash.1 ∈ LRU.Map_keys (LRU.map (LRU.run c0 ops)))
    then LRU.size (LRU.run c0 ops)
    else Z.min (LRU.size (LRU.run c0 ops) + 1) maxSize.
Proof.
  intros Hmax [= <-].
  pose proof (NoDup_keys_run (LRU.mkLRU [] maxSize) ops eq_refl) as Hnd.
  pose proof (size_run_le (LRU.mkLRU [] maxSize) ops eq_refl) as Hle.
  pose proof (maxSize_run (LRU.mkLRU [] maxSize) ops) as Hm.
  set (c := LRU.run (LRU.mkLRU (Move := Move) [] maxSize) ops) in *.
  cbn [LRU.maxSize] in Hle, Hm.
  pose proof (size_add_store c hash val Hnd) as Hmid.
  pose proof (NoDup_keys_add_store c hash val Hnd) as Hndmid.
  pose proof (maxSize_add_store c hash val) as Hmm.
  destruct (Map_keys_add_store_cons c hash val) as (k0 & ks & Hks).
  unfold LRU.add.
  assert (LRU.Map_get (LRU.map c) hash.1 = None ↔ hash.1 ∉ LRU.Map_keys (LRU.map c))
    as Hnone by apply Map_get_None.
  set (mid := LRU.add_store c hash val) in *.
  destruct (decide (LRU.maxSize mid < LRU.size mid)) as [Hlt|Hge].
  - rewrite Hks in Hndmid.
    destruct (add_evict_spec mid k0 ks Hks Hndmid Hlt) as (_ & _ & _ & ->).
    destruct (LRU.Map_get (LRU.map c) hash.1) as [arr|] eqn:Hget.
    + lia.
    + rewrite decide_False by (by apply Hnone). lia.
  - rewrite add_evict_id by done.
    destruct (LRU.Map_get (LRU.map c) hash.1) as [arr|] eqn:Hget.
    + rewrite decide_True; [done|]. by eapply Map_get_Some.
    + rewrite decide_False by (by apply Hnone). lia.
Qed.

End LRUSize.

(** ** Instances of the further properties *)

Lemma hash_returns_int32_witness :
  hash example_pos example_globals = Some ((343, -63691), example_globals)
  ∧ int32_pair (343, -63691).
Proof.
  assert (hash example_pos example_globals = Some ((343, -63691), example_globals))
    as Hhash by (vm_compute; reflexivity).
  split; [exact Hhash|].
  exact (proj1 (hash_returns_int32 example_pos example_globals _ _ Hhash)).
Defined.

Lemma hash_ep_file_witness :
  hash (with_ep example_pos 20) example_globals
  = hash (with_ep example_pos 4) example_globals.
Proof. apply hash_ep_file; [lia | lia | reflexivity]. Defined.

Lemma hash_negative_ep_witness :
  hash (with_ep example_pos (-2)) example_globals = None.
Proof.
  apply (proj1 (hash_negative_ep example_pos example_globals (-2) ltac:(lia))).
  vm_compute. discriminate.
Defined.

Lemma hash_place_piece_witness :
  hash (with_square example_pos 1 (Some 1%nat)) example_globals
  = bind (hash example_pos) (applyHashes (Some (1179, 9098))) example_globals
  ∧ hash example_pos example_globals
    = bind (hash (with_square example_pos 1 (Some 1%nat)))
        (applyHashes (Some (1179, 9098))) example_globals.
Proof.
  apply hash_place_piece.
  - lia.
  - reflexivity.
  - vm_compute. reflexivity.
Defined.

Lemma hash_with_turn_witness :
  hash (with_turn example_pos BLACK) example_globals
  = bind (bind (hash (with_turn example_pos WHITE)) (applyHashes (Some (-1057, 6862))))
      (applyHashes (Some (14781, 22700))) example_globals.
Proof. apply hash_with_turn; vm_compute; reflexivity. Defined.

Lemma init_key_layout_witness :
  ∃ g, init example_mt ([0%nat] ++ [1%nat]) globals0 = Some ((), g)
    ∧ piece_key (hashes g) 1%nat 1%nat = Some (example_mt 158, example_mt 159)
    ∧ hashes_piece (hashes g) !! 2%nat = None.
Proof.
  destruct (init_key_layout example_mt [0%nat] 1%nat) as (g & Hinit & Hkey & Hout & _).
  { apply NoDup_cons_2; [|apply NoDup_singleton].
    intros Hin. apply list_elem_of_singleton in Hin. discriminate Hin. }
  exists g. split; [exact Hinit|]. split.
  - apply (Hkey 1%nat 1%nat 1%nat); [reflexivity | lia].
  - apply Hout. intros Hin.
    apply elem_of_cons in Hin as [Hin|Hin]; [discriminate Hin|].
    apply list_elem_of_singleton in Hin. discriminate Hin.
Defined.

Lemma hash_succeeds_after_init_witness :
  ∃ fp, hash example_pos example_globals = Some (fp, example_globals) ∧ int32_pair fp.
Proof.
  apply (hash_succeeds_after_init example_mt example_pieces).
  - discriminate.
  - apply example_globals_table.
  - apply example_pos_wf.
Defined.

Lemma LRU_get_returns_last_add_witness :
  last_add example_ops (1, 10) = Some (EScore 5).
Proof.
  apply (LRU_get_returns_last_add 2 (LRU.mkLRU [] 2)).
  - reflexivity.
  - vm_compute. reflexivity.
Defined.

Lemma LRU_add_other_entries_witness :
  (LRU.get (LRU.add (LRU.run (LRU.mkLRU [] 2) example_ops) (1, 11) (EScore 7)) (1, 10)).1
  = (LRU.get (LRU.run (LRU.mkLRU [] 2) example_ops) (1, 10)).1.
Proof.
  apply (LRU_add_other_entries (LRU.run (LRU.mkLRU [] 2) example_ops) (1, 11) (EScore 7)
           (1, 10)).
  - discriminate.
  - vm_compute. discriminate.
  - reflexivity.
Defined.

Lemma LRU_get_keeps_entries_witness :
  (LRU.get (LRU.get (LRU.run (LRU.mkLRU [] 2) example_ops) (2, 20)).2 (1, 10)).1
  = (LRU.get (LRU.run (LRU.mkLRU [] 2) example_ops) (1, 10)).1
  ∧ LRU.size (LRU.get (LRU.run (LRU.mkLRU [] 2) example_ops) (2, 20)).2
    = LRU.size (LRU.run (LRU.mkLRU [] 2) example_ops).
Proof. apply (LRU_get_keeps_entries 2). reflexivity. Defined.

Lemma LRU_exact_until_full_witness :
  (LRU.get (LRU.run (LRU.mkLRU [] 2) example_ops) (2, 20)).1 = last_add example_ops (2, 20).
Proof.
  apply (LRU_exact_until_full 2).
  - reflexivity.
  - vm_compute. discriminate.
Defined.

Lemma LRU_entry_survives_witness :
  (LRU.get
     (LRU.run (LRU.add (LRU.run (LRU.mkLRU [] 2) example_ops) (3, 30) (EMove ()))
        [OpAdd (4, 40) (EScore 1)]) (3, 30)).1
  = Some (EMove ()).
Proof.
  apply (LRU_entry_survives 2).
  - reflexivity.
  - vm_compute. reflexivity.
  - intros [val Hin]. apply list_elem_of_singleton in Hin. discriminate Hin.
Defined.

Lemma Cache_get_returns_last_add_witness :
  last_add example_ops (2, 20) = Some (EScore 0).
Proof.
  apply (Cache_get_returns_last_add 1 (Cache.mkCache ∅ 1 0)).
  - reflexivity.
  - vm_compute. reflexivity.
Defined.

Lemma Cache_add_when_not_full_witness :
  Cache.get (Cache.add (Cache.run (Cache.mkCache ∅ 3 0) example_ops) (5, 50) (EScore 9))
    (1, 10)
  = Cache.get (Cache.run (Cache.mkCache ∅ 3 0) example_ops) (1, 10)
  ∧ Cache.size (Cache.add (Cache.run (Cache.mkCache ∅ 3 0) example_ops) (5, 50) (EScore 9))
    = 3.
Proof.
  destruct (Cache_add_when_not_full (Cache.run (Cache.mkCache ∅ 3 0) example_ops)
              (5, 50) (EScore 9)) as [Hget Hsize].
  { vm_compute. discriminate. }
  split.
  - rewrite Hget. reflexivity.
  - rewrite Hsize. vm_compute. reflexivity.
Defined.

Lemma Cache_exact_until_full_witness :
  Cache.get (Cache.run (Cache.mkCache ∅ 2 0) example_ops) (1, 10)
  = last_add example_ops (1, 10).
Proof.
  apply (Cache_exact_until_full 2).
  - reflexivity.
  - vm_compute. discriminate.
Defined.

Lemma Cache_nonpositive_maxSize_keeps_all_witness :
  Cache.get (Cache.run (Cache.mkCache ∅ 0 0) example_ops) (1, 10)
  = last_add example_ops (1, 10)
  ∧ 0 < Cache.size (Cache.run (Cache.mkCache ∅ 0 0) example_ops).
Proof.
  destruct (Cache_nonpositive_maxSize_keeps_all 0 (Cache.mkCache ∅ 0 0) example_ops (1, 10))
    as [Hget Hsize].
  { lia. }
  { reflexivity. }
  split; [exact Hget|]. apply Hsize. vm_compute. discriminate.
Defined.

Lemma hash_toggle_right_witness :
  hash (toggle_right example_pos BlackKingside) example_globals
  = bind (hash example_pos) (applyHashes (Some (-21870, -13951))) example_globals
  ∧ hash (toggle_right (toggle_right example_pos BlackKingside) BlackKingside)
      example_globals
    = hash example_pos example_globals.
Proof. apply hash_toggle_right. vm_compute. reflexivity. Defined.

Lemma hash_set_ep_witness :
  hash (with_ep (with_ep example_pos (-1)) 20) example_globals
  = bind (hash (with_ep example_pos (-1))) (applyHashes (Some (-42683, -34764)))
      example_globals.
Proof.
  apply hash_set_ep.
  - reflexivity.
  - lia.
  - vm_compute. reflexivity.
Defined.

Lemma LRU_size_after_add_witness :
  LRU.size (LRU.add (LRU.run (LRU.mkLRU [] 2) example_ops) (3, 30) (EMove ()))
  = if decide ((3, 30).1 ∈ LRU.Map_keys (LRU.map (LRU.run (LRU.mkLRU [] 2) example_ops)))
    then LRU.size (LRU.run (LRU.mkLRU [] 2) example_ops)
    else Z.min (LRU.size (LRU.run (LRU.mkLRU [] 2) example_ops) + 1) 2.
Proof.
  apply (LRU_size_after_add 2).
  - lia.
  - reflexivity.
Defined.
